(** * divine.py: picking stocks from latte foam

    A shallow embedding of [src/divine.py] and the verification of its
    combination unranker, its rank interpolator, its digest bit string and
    its symbol selector.

    Python integers are [Z]; Python lists are [list]; a call that can raise
    returns a [result]; Python's [float] is modelled by correctly rounded
    binary floating point with an explicit precision (53 bits for the
    reference platform). *)

From Stdlib Require Import ZArith Lia Bool Arith Ascii String List Sorted.
Import ListNotations.

Local Open Scope Z_scope.

(** ** Python prelude: exceptions and results *)

Inductive exn : Type :=
| ValueError
| StopIteration
| IndexError
| OverflowError
| ZeroDivisionError
| AssertionError.

Inductive result (A : Type) : Type :=
| Ok (a : A)
| Raise (e : exn).

Arguments Ok {A} a.
Arguments Raise {A} e.

Definition bind {A B : Type} (r : result A) (f : A -> result B) : result B :=
  match r with
  | Ok a => f a
  | Raise e => Raise e
  end.

Notation "x <- r ;; k" := (bind r (fun x => k))
  (at level 61, r at next level, right associativity).
Notation "' p <- r ;; k" := (bind r (fun x => match x with p => k end))
  (at level 61, p pattern, r at next level, right associativity).

Definition raises {A : Type} (r : result A) : Prop :=
  exists e, r = Raise e.

(** ** Configuration constants (divine.py, lines 22 and 26) *)

Definition N_PICKS : Z := 4.
Definition SR_BITS : Z := 7.

(** ** [math.comb]

    [math.comb(n, k)] is [n! / (k! * (n - k)!)] when [k <= n], zero when
    [k > n], and raises [ValueError] when either argument is negative.  The
    value is computed by the usual running product, every division of which
    is exact. *)

Fixpoint comb_prod (n : Z) (k : nat) : Z :=
  match k with
  | O => 1
  | S j => comb_prod n j * (n - Z.of_nat j) / Z.of_nat (S j)
  end.

Definition math_comb (n k : Z) : result Z :=
  if (n <? 0) || (k <? 0) then Raise ValueError
  else Ok (comb_prod n (Z.to_nat k)).

(** ** [_get_ith_comb] (divine.py, lines 73-99) *)

(** [next(x for x in scored if x[1] <= above)] where [scored] pairs every
    [x] of [reversed(range(n_p))] with [math.comb(x, k_p)].  An exhausted
    generator makes [next] raise [StopIteration]. *)
Fixpoint scan (n_p : nat) (k_p above : Z) : result (Z * Z) :=
  match n_p with
  | O => Raise StopIteration
  | S x =>
      below <- math_comb (Z.of_nat x) k_p ;;
      if below <=? above then Ok (Z.of_nat x, below)
      else scan x k_p above
  end.

(** The body of [for _ in range(0, k)], run [iters] times. *)
Fixpoint comb_loop (iters : nat) (n : Z) (res : list Z) (n_p k_p above : Z)
  : result (list Z) :=
  match iters with
  | O => Ok res
  | S i =>
      '(x, below) <- scan (Z.to_nat n_p) k_p above ;;
      comb_loop i n (res ++ [n - 1 - x]) x (k_p - 1) (above - below)
  end.

Definition _get_ith_comb (n k idx : Z) : result (list Z) :=
  c <- math_comb n k ;;
  comb_loop (Z.to_nat k) n [] n k (c - 1 - idx).

(** ** [_pick_sp500_symbols] (divine.py, lines 29-55 and 102-108) *)

(** [SP_500], the result of splitting the table of divine.py on white space. *)
Definition SP_500 : list string := Eval cbv in
  [ "MMM"; "AOS"; "ABT"; "ABBV"; "ACN"; "ATVI"; "ADM"; "ADBE"; "ADP"; "AAP";
    "AES"; "AFL"; "A"; "APD"; "AKAM"; "ALK"; "ALB"; "ARE"; "ALGN"; "ALLE";
    "LNT"; "ALL"; "GOOGL"; "GOOG"; "MO"; "AMZN"; "AMCR"; "AMD"; "AEE"; "AAL";
    "AEP"; "AXP"; "AIG"; "AMT"; "AWK"; "AMP"; "ABC"; "AME"; "AMGN"; "APH";
    "ADI"; "ANSS"; "AON"; "APA"; "AAPL"; "AMAT"; "APTV"; "ACGL"; "ANET";
    "AJG"; "AIZ"; "T"; "ATO"; "ADSK"; "AZO"; "AVB"; "AVY"; "AXON"; "BKR";
    "BALL"; "BAC"; "BBWI"; "BAX"; "BDX"; "WRB"; "BRK.B"; "BBY"; "BIO";
    "TECH"; "BIIB"; "BLK"; "BK"; "BA"; "BKNG"; "BWA"; "BXP"; "BSX"; "BMY";
    "AVGO"; "BR"; "BRO"; "BF.B"; "BG"; "CHRW"; "CDNS"; "CZR"; "CPT"; "CPB";
    "COF"; "CAH"; "KMX"; "CCL"; "CARR"; "CTLT"; "CAT"; "CBOE"; "CBRE"; "CDW";
    "CE"; "CNC"; "CNP"; "CDAY"; "CF"; "CRL"; "SCHW"; "CHTR"; "CVX"; "CMG";
    "CB"; "CHD"; "CI"; "CINF"; "CTAS"; "CSCO"; "C"; "CFG"; "CLX"; "CME";
    "CMS"; "KO"; "CTSH"; "CL"; "CMCSA"; "CMA"; "CAG"; "COP"; "ED"; "STZ";
    "CEG"; "COO"; "CPRT"; "GLW"; "CTVA"; "CSGP"; "COST"; "CTRA"; "CCI";
    "CSX"; "CMI"; "CVS"; "DHI"; "DHR"; "DRI"; "DVA"; "DE"; "DAL"; "XRAY";
    "DVN"; "DXCM"; "FANG"; "DLR"; "DFS"; "DIS"; "DG"; "DLTR"; "D"; "DPZ";
    "DOV"; "DOW"; "DTE"; "DUK"; "DD"; "DXC"; "EMN"; "ETN"; "EBAY"; "ECL";
    "EIX"; "EW"; "EA"; "ELV"; "LLY"; "EMR"; "ENPH"; "ETR"; "EOG"; "EPAM";
    "EQT"; "EFX"; "EQIX"; "EQR"; "ESS"; "EL"; "ETSY"; "EG"; "EVRG"; "ES";
    "EXC"; "EXPE"; "EXPD"; "EXR"; "XOM"; "FFIV"; "FDS"; "FICO"; "FAST";
    "FRT"; "FDX"; "FITB"; "FSLR"; "FE"; "FIS"; "FI"; "FLT"; "FMC"; "F";
    "FTNT"; "FTV"; "FOXA"; "FOX"; "BEN"; "FCX"; "GRMN"; "IT"; "GEHC"; "GEN";
    "GNRC"; "GD"; "GE"; "GIS"; "GM"; "GPC"; "GILD"; "GL"; "GPN"; "GS"; "HAL";
    "HIG"; "HAS"; "HCA"; "PEAK"; "HSIC"; "HSY"; "HES"; "HPE"; "HLT"; "HOLX";
    "HD"; "HON"; "HRL"; "HST"; "HWM"; "HPQ"; "HUM"; "HBAN"; "HII"; "IBM";
    "IEX"; "IDXX"; "ITW"; "ILMN"; "INCY"; "IR"; "PODD"; "INTC"; "ICE"; "IFF";
    "IP"; "IPG"; "INTU"; "ISRG"; "IVZ"; "INVH"; "IQV"; "IRM"; "JBHT"; "JKHY";
    "J"; "JNJ"; "JCI"; "JPM"; "JNPR"; "K"; "KDP"; "KEY"; "KEYS"; "KMB";
    "KIM"; "KMI"; "KLAC"; "KHC"; "KR"; "LHX"; "LH"; "LRCX"; "LW"; "LVS";
    "LDOS"; "LEN"; "LNC"; "LIN"; "LYV"; "LKQ"; "LMT"; "L"; "LOW"; "LYB";
    "MTB"; "MRO"; "MPC"; "MKTX"; "MAR"; "MMC"; "MLM"; "MAS"; "MA"; "MTCH";
    "MKC"; "MCD"; "MCK"; "MDT"; "MRK"; "META"; "MET"; "MTD"; "MGM"; "MCHP";
    "MU"; "MSFT"; "MAA"; "MRNA"; "MHK"; "MOH"; "TAP"; "MDLZ"; "MPWR"; "MNST";
    "MCO"; "MS"; "MOS"; "MSI"; "MSCI"; "NDAQ"; "NTAP"; "NFLX"; "NWL"; "NEM";
    "NWSA"; "NWS"; "NEE"; "NKE"; "NI"; "NDSN"; "NSC"; "NTRS"; "NOC"; "NCLH";
    "NRG"; "NUE"; "NVDA"; "NVR"; "NXPI"; "ORLY"; "OXY"; "ODFL"; "OMC"; "ON";
    "OKE"; "ORCL"; "OGN"; "OTIS"; "PCAR"; "PKG"; "PANW"; "PARA"; "PH";
    "PAYX"; "PAYC"; "PYPL"; "PNR"; "PEP"; "PFE"; "PCG"; "PM"; "PSX"; "PNW";
    "PXD"; "PNC"; "POOL"; "PPG"; "PPL"; "PFG"; "PG"; "PGR"; "PLD"; "PRU";
    "PEG"; "PTC"; "PSA"; "PHM"; "QRVO"; "PWR"; "QCOM"; "DGX"; "RL"; "RJF";
    "RTX"; "O"; "REG"; "REGN"; "RF"; "RSG"; "RMD"; "RVTY"; "RHI"; "ROK";
    "ROL"; "ROP"; "ROST"; "RCL"; "SPGI"; "CRM"; "SBAC"; "SLB"; "STX"; "SEE";
    "SRE"; "NOW"; "SHW"; "SPG"; "SWKS"; "SJM"; "SNA"; "SEDG"; "SO"; "LUV";
    "SWK"; "SBUX"; "STT"; "STLD"; "STE"; "SYK"; "SYF"; "SNPS"; "SYY"; "TMUS";
    "TROW"; "TTWO"; "TPR"; "TRGP"; "TGT"; "TEL"; "TDY"; "TFX"; "TER"; "TSLA";
    "TXN"; "TXT"; "TMO"; "TJX"; "TSCO"; "TT"; "TDG"; "TRV"; "TRMB"; "TFC";
    "TYL"; "TSN"; "USB"; "UDR"; "ULTA"; "UNP"; "UAL"; "UPS"; "URI"; "UNH";
    "UHS"; "VLO"; "VTR"; "VRSN"; "VRSK"; "VZ"; "VRTX"; "VFC"; "VTRS"; "VICI";
    "V"; "VMC"; "WAB"; "WBA"; "WMT"; "WBD"; "WM"; "WAT"; "WEC"; "WFC";
    "WELL"; "WST"; "WDC"; "WRK"; "WY"; "WHR"; "WMB"; "WTW"; "GWW"; "WYNN";
    "XEL"; "XYL"; "YUM"; "ZBRA"; "ZBH"; "ZION"; "ZTS" ]%string.

(** [len(l)]. *)
Definition len {A : Type} (l : list A) : Z := Z.of_nat (length l).

(** [l[i]]: a negative index counts from the end, an index outside
    [-len(l), len(l)) raises [IndexError]. *)
Definition py_getitem {A : Type} (l : list A) (i : Z) : result A :=
  let j := if i <? 0 then i + len l else i in
  if j <? 0 then Raise IndexError
  else match nth_error l (Z.to_nat j) with
       | Some a => Ok a
       | None => Raise IndexError
       end.

(** A list comprehension [[f(i) for i in l]] whose body can raise. *)
Fixpoint comprehension {A B : Type} (f : A -> result B) (l : list A)
  : result (list B) :=
  match l with
  | [] => Ok []
  | a :: t => b <- f a ;; bs <- comprehension f t ;; Ok (b :: bs)
  end.

Definition _pick_sp500_symbols (choice : Z) : result (list string) :=
  comb <- _get_ith_comb (len SP_500) N_PICKS choice ;;
  comprehension (py_getitem SP_500) comb.

(** ** The digest bit string (divine.py, lines 118-132)

    Decoding, grey-scale conversion and resizing belong to the imaging
    library; what it hands back is the 1 x 1 average, the [SR_BITS] x 1 row
    of samples and the 1 x [SR_BITS] column of samples. *)

Record samples : Type := {
  rows_mono_image : list Z;
  cols_mono_image : list Z;
  average_l : Z
}.

(** [str(int(b))]. *)
Definition str_int (b : bool) : string :=
  if b then "1"%string else "0"%string.

(** ["0b" + "".join(str(int(r == c)) for r, c in it.product(rows, cols))]. *)
Definition bin_str (rows cols : list bool) : string :=
  ("0b" ++ String.concat ""
     (map (fun rc => str_int (Bool.eqb (fst rc) (snd rc)))
        (list_prod rows cols)))%string.

Definition _get_bin_str_from_image (img : samples) : string :=
  let rows := map (fun v => average_l img <? v) (rows_mono_image img) in
  let cols := map (fun v => average_l img <? v) (cols_mono_image img) in
  bin_str rows cols.

(** ** [int(x, 2)]

    Modelled on the literals the program builds: an optional [0b] or [0B]
    prefix followed by at least one binary digit.  White space, signs and
    underscores, which [int] also accepts, never occur in them and are
    rejected here. *)

Definition bit_of_ascii (c : ascii) : option Z :=
  if Ascii.eqb c "0" then Some 0
  else if Ascii.eqb c "1" then Some 1
  else None.

Fixpoint parse_bits (s : string) (acc : Z) : result Z :=
  match s with
  | EmptyString => Ok acc
  | String c t =>
      match bit_of_ascii c with
      | Some b => parse_bits t (2 * acc + b)
      | None => Raise ValueError
      end
  end.

Definition strip_0b (x : string) : string :=
  match x with
  | String "0" (String "b" t) => t
  | String "0" (String "B" t) => t
  | _ => x
  end.

Definition py_int_base2 (x : string) : result Z :=
  match strip_0b x with
  | EmptyString => Raise ValueError
  | body => parse_bits body 0
  end.

(** ** Python floats

    A float is a binary floating-point number of a format fixed by the
    platform: [prec] significant bits, least exponent [emin] of the unit in
    the last place, and every finite value below [2 ^ emax].  [Fin m e]
    stands for [m * 2 ^ e].  Every operation returns the exact result
    rounded to nearest, ties to even. *)

Record float_format : Type := {
  prec : Z;
  emin : Z;
  emax : Z
}.

Definition binary64 : float_format :=
  {| prec := 53; emin := -1074; emax := 1024 |}.

Inductive pyfloat : Type :=
| Fin (m e : Z)
| Inf (negative : bool)
| NaN.

(** The integer nearest to [N / D], ties to even, for [0 < D]. *)
Definition rne_div (N D : Z) : Z :=
  let q := N / D in
  let r := N mod D in
  if 2 * r <? D then q
  else if D <? 2 * r then q + 1
  else if Z.even q then q else q + 1.

(** [floor (log2 (N / D))] for [0 < N] and [0 < D]. *)
Definition ilog2_ratio (N D : Z) : Z :=
  let l := Z.log2 N - Z.log2 D in
  let below := if 0 <=? l then N <? D * 2 ^ l else N * 2 ^ (- l) <? D in
  if below then l - 1 else l.

(** [N / D], for [0 < D], rounded into the format. *)
Definition round_ratio (f : float_format) (N D : Z) : pyfloat :=
  if N =? 0 then Fin 0 0
  else
    let e := Z.max (ilog2_ratio (Z.abs N) D - (prec f - 1)) (emin f) in
    let m := if 0 <=? e then rne_div N (D * 2 ^ e)
             else rne_div (N * 2 ^ (- e)) D in
    if 2 ^ (emax f - e) <=? Z.abs m then Inf (m <? 0) else Fin m e.

(** [a / b] on two integers: the correctly rounded quotient. *)
Definition int_truediv (f : float_format) (a b : Z) : result pyfloat :=
  if b =? 0 then Raise ZeroDivisionError
  else match round_ratio f (a * Z.sgn b) (Z.abs b) with
       | Fin m e => Ok (Fin m e)
       | _ => Raise OverflowError
       end.

(** The conversion of an integer operand of a float operation. *)
Definition float_of_int (f : float_format) (i : Z) : result pyfloat :=
  match round_ratio f i 1 with
  | Fin m e => Ok (Fin m e)
  | _ => Raise OverflowError
  end.

Definition float_mul (f : float_format) (x y : pyfloat) : pyfloat :=
  match x, y with
  | Fin m1 e1, Fin m2 e2 =>
      let e := e1 + e2 in
      if 0 <=? e then round_ratio f (m1 * m2 * 2 ^ e) 1
      else round_ratio f (m1 * m2) (2 ^ (- e))
  | Inf s, Fin m _ | Fin m _, Inf s =>
      if m =? 0 then NaN else Inf (xorb s (m <? 0))
  | Inf s1, Inf s2 => Inf (xorb s1 s2)
  | _, _ => NaN
  end.

(** [x == i] for a float [x] and an integer [i]: an exact comparison. *)
Definition float_eq_int (x : pyfloat) (i : Z) : bool :=
  match x with
  | Fin m e => if 0 <=? e then m * 2 ^ e =? i else m =? i * 2 ^ (- e)
  | _ => false
  end.

Definition math_floor (x : pyfloat) : result Z :=
  match x with
  | Fin m e => Ok (if 0 <=? e then m * 2 ^ e else m / 2 ^ (- e))
  | Inf _ => Raise OverflowError
  | NaN => Raise ValueError
  end.

(** ** The start-up assertion (divine.py, lines 58-63)

    [assert (2**SR_BITS - 1) / 2**SR_BITS != 1, _msg] on a platform whose
    floats have format [f]. *)
Definition precision_assert (f : float_format) : result unit :=
  q <- int_truediv f (2 ^ SR_BITS - 1) (2 ^ SR_BITS) ;;
  if float_eq_int q 1 then Raise AssertionError else Ok tt.

(** What the comment above that assertion asks for, "precision is at least
    49 bits": the format tells [(2^49 - 1) / 2^49] from [1]. *)
Definition distinguishes_49_bits (f : float_format) : bool :=
  match int_truediv f (2 ^ (SR_BITS ^ 2) - 1) (2 ^ (SR_BITS ^ 2)) with
  | Ok q => negb (float_eq_int q 1)
  | Raise _ => false
  end.

(** ** [_interp_49_bit] (divine.py, lines 135-142)

    [math.floor(int(x, 2) / 2 ** (SR_BITS**2) * y_sup)]. *)
Definition interp_49_bit_on (f : float_format) (x : string) (y_sup : Z)
  : result Z :=
  d <- py_int_base2 x ;;
  q <- int_truediv f d (2 ^ (SR_BITS ^ 2)) ;;
  y <- float_of_int f y_sup ;;
  math_floor (float_mul f q y).

Definition _interp_49_bit : string -> Z -> result Z :=
  interp_49_bit_on binary64.

(** ** The pipeline (divine.py, lines 152-171) *)

Definition _get_number_from_image (img : samples) (num_choices : Z)
  : result Z :=
  _interp_49_bit (_get_bin_str_from_image img) num_choices.

Definition _pick_stocks (img : samples) : result (list string) :=
  num_choices <- math_comb (len SP_500) N_PICKS ;;
  choice <- _get_number_from_image img num_choices ;;
  _pick_sp500_symbols choice.

(** ** Specification-side notions

    The enumeration the unranker is measured against, and the orders and
    predicates used to say that it is the canonical one. *)

(** [range(n)]. *)
Definition py_range (n : Z) : list Z :=
  map Z.of_nat (seq 0 (Z.to_nat n)).

(** [it.combinations(l, k)], in the order in which itertools emits. *)
Fixpoint combinations {A : Type} (l : list A) (k : nat) : list (list A) :=
  match k, l with
  | O, _ => [[]]
  | S _, [] => []
  | S k', x :: t => map (cons x) (combinations t k') ++ combinations t k
  end.

(** Tuples compared element by element. *)
Inductive lex_lt : list Z -> list Z -> Prop :=
| lex_lt_nil : forall y t, lex_lt [] (y :: t)
| lex_lt_head : forall x y s t, x < y -> lex_lt (x :: s) (y :: t)
| lex_lt_tail : forall x s t, lex_lt s t -> lex_lt (x :: s) (x :: t).

(** A [k]-combination of [{0, ..., n-1}] as an ascending tuple. *)
Definition is_comb (n k : Z) (c : list Z) : Prop :=
  len c = k /\ StronglySorted Z.lt c /\ Forall (fun i => 0 <= i < n) c.

(** Pascal's triangle, the binomial coefficients by their recurrence. *)
Fixpoint pascal (n k : nat) : Z :=
  match k, n with
  | O, _ => 1
  | S _, O => 0
  | S k', S n' => pascal n' k' + pascal n' k
  end.

(** The ascending run [a, a+1, ..., a+m-1]. *)
Definition run (a m : nat) : list Z := map Z.of_nat (seq a m).

(** The unsigned integer written by a list of bits, first bit most
    significant. *)
Definition bits_value (bits : list bool) : Z :=
  fold_left (fun acc (b : bool) => 2 * acc + Z.b2z b) bits 0.

(** The binary digits of a list of bits, as text. *)
Fixpoint digits (bits : list bool) : string :=
  match bits with
  | [] => EmptyString
  | b :: t => String (if b then "1" else "0")%char (digits t)
  end.

(** The bits of the digest, one for every pair of [it.product(rows, cols)]. *)
Definition pair_bits (rows cols : list bool) : list bool :=
  map (fun rc => Bool.eqb (fst rc) (snd rc)) (list_prod rows cols).

(** The bit the digest has for the pair [(i, j)]. *)
Definition pair_bit (rows cols : list bool) (i j : nat) : bool :=
  Bool.eqb (nth i rows false) (nth j cols false).

(** The integer [n] rounded to [p] significant bits, to nearest, ties to
    even. *)
Definition round_sig (p n : Z) : Z :=
  let t := Z.log2 n - (p - 1) in
  if t <=? 0 then n else rne_div n (2 ^ t) * 2 ^ t.

(** IEEE binary32, the format of a single-precision platform. *)
Definition binary32 : float_format :=
  {| prec := 24; emin := -149; emax := 128 |}.

(** A decision procedure for the absence of repeated labels. *)
Fixpoint all_distinct (l : list string) : bool :=
  match l with
  | [] => true
  | x :: t => negb (existsb (String.eqb x) t) && all_distinct t
  end.

(** The complementary rank read back from a combination: the sum of the
    values [math.comb(n - 1 - x, k_p)] that the loop subtracts from [above]
    when it appends [x] with [k_p] picks still to make. *)
Fixpoint combinadic (n : Z) (c : list Z) : Z :=
  match c with
  | [] => 0
  | x :: t => comb_prod (n - 1 - x) (length c) + combinadic n t
  end.

(** All the boolean vectors of a given length. *)
Fixpoint all_bools (n : nat) : list (list bool) :=
  match n with
  | O => [[]]
  | S n' => map (cons true) (all_bools n') ++ map (cons false) (all_bools n')
  end.

(** Replaces a non-negative integer by the natural number it injects. *)
Ltac as_nat n n0 :=
  let H := fresh in
  assert (H : exists m : nat, n = Z.of_nat m) by (exists (Z.to_nat n); lia);
  destruct H as [n0 ->]; rewrite ?Nat2Z.id in *.

(** ** Worked examples *)

Example get_ith_comb_5_2_4 : _get_ith_comb 5 2 4 = Ok [1; 2].
Proof. reflexivity. Qed.

Example get_ith_comb_5_2_9 : _get_ith_comb 5 2 9 = Ok [3; 4].
Proof. reflexivity. Qed.

Example combinations_5_2 :
  combinations (py_range 5) 2 =
  [[0;1];[0;2];[0;3];[0;4];[1;2];[1;3];[1;4];[2;3];[2;4];[3;4]].
Proof. reflexivity. Qed.

Example select_B_C :
  comprehension (py_getitem ["A"; "B"; "C"; "D"; "E"]%string) [1; 2]
  = Ok ["B"; "C"]%string.
Proof. reflexivity. Qed.

(** ** Binomial coefficients *)

Lemma pascal_0_r (n : nat) : pascal n 0 = 1.
Proof. destruct n; reflexivity. Qed.

Lemma pascal_S (n k : nat) :
  pascal (S n) (S k) = pascal n k + pascal n (S k).
Proof. reflexivity. Qed.

Lemma pascal_nonneg (n k : nat) : 0 <= pascal n k.
Proof.
  revert k; induction n as [|n IH]; intros [|k]; simpl; try lia.
  pose proof (IH k); pose proof (IH (S k)); lia.
Qed.

Lemma pascal_gt (n k : nat) : (n < k)%nat -> pascal n k = 0.
Proof.
  revert k; induction n as [|n IH]; intros [|k] H; try lia; [reflexivity|].
  rewrite pascal_S, !IH by lia. reflexivity.
Qed.

Lemma pascal_pos (n k : nat) : (k <= n)%nat -> 0 < pascal n k.
Proof.
  revert k; induction n as [|n IH]; intros [|k] H; simpl; try lia.
  pose proof (IH k ltac:(lia)). pose proof (pascal_nonneg n (S k)). lia.
Qed.

Lemma pascal_diag (n : nat) : pascal n n = 1.
Proof.
  induction n as [|n IH]; [reflexivity|].
  rewrite pascal_S, IH, pascal_gt by lia. reflexivity.
Qed.

(** The absorption identity [(k + 1) C(n, k+1) = (n - k) C(n, k)], which
    makes every division of the running product exact. *)
Lemma pascal_absorb (n k : nat) :
  Z.of_nat (S k) * pascal n (S k) = (Z.of_nat n - Z.of_nat k) * pascal n k.
Proof.
  revert k; induction n as [|n IH]; intros k.
  - destruct k; simpl; lia.
  - rewrite pascal_S. destruct k as [|k].
    + rewrite !pascal_0_r.
      specialize (IH 0%nat). rewrite pascal_0_r in IH. lia.
    + rewrite (pascal_S n k).
      pose proof (IH k) as H1. pose proof (IH (S k)) as H2.
      rewrite !Nat2Z.inj_succ in *. nia.
Qed.

Lemma comb_prod_pascal (n k : nat) : comb_prod (Z.of_nat n) k = pascal n k.
Proof.
  induction k as [|k IH]; [now rewrite pascal_0_r|].
  cbn [comb_prod]. rewrite IH.
  replace (pascal n k * (Z.of_nat n - Z.of_nat k))
    with (pascal n (S k) * Z.of_nat (S k))
    by (pose proof (pascal_absorb n k); lia).
  apply Z.div_mul. lia.
Qed.

Lemma math_comb_pascal (n k : Z) :
  0 <= n -> 0 <= k ->
  math_comb n k = Ok (pascal (Z.to_nat n) (Z.to_nat k)).
Proof.
  intros Hn Hk. unfold math_comb.
  destruct (Z.ltb_spec n 0); [lia|]. destruct (Z.ltb_spec k 0); [lia|].
  cbn. rewrite <- comb_prod_pascal, Z2Nat.id by lia. reflexivity.
Qed.

Lemma math_comb_nat (n k : nat) :
  math_comb (Z.of_nat n) (Z.of_nat k) = Ok (pascal n k).
Proof. rewrite math_comb_pascal, !Nat2Z.id by lia. reflexivity. Qed.

Lemma math_comb_negative (n k : Z) :
  n < 0 \/ k < 0 -> math_comb n k = Raise ValueError.
Proof.
  intros H. unfold math_comb.
  destruct (Z.ltb_spec n 0), (Z.ltb_spec k 0); try reflexivity; lia.
Qed.

(** ** The enumeration [combinations] *)

Lemma combinations_length {A : Type} (l : list A) (k : nat) :
  Z.of_nat (length (combinations l k)) = pascal (length l) k.
Proof.
  revert k; induction l as [|x t IH]; intros [|k]; try reflexivity.
  cbn [combinations length]. rewrite pascal_S, length_app, length_map.
  rewrite Nat2Z.inj_add, !IH. reflexivity.
Qed.

Lemma combinations_nth_cons {A : Type} (x : A) (t : list A) (k idx : nat) :
  nth_error (combinations (x :: t) (S k)) idx =
  if Z.of_nat idx <? pascal (length t) k
  then option_map (cons x) (nth_error (combinations t k) idx)
  else nth_error (combinations t (S k))
         (idx - length (combinations t k)).
Proof.
  cbn [combinations]. pose proof (combinations_length t k) as Hlen.
  destruct (Z.ltb_spec (Z.of_nat idx) (pascal (length t) k)).
  - rewrite nth_error_app1 by (rewrite length_map; lia).
    apply nth_error_map.
  - rewrite nth_error_app2 by (rewrite length_map; lia).
    now rewrite length_map.
Qed.

Lemma py_range_run (n : nat) : py_range (Z.of_nat n) = run 0%nat n.
Proof. unfold py_range, run. now rewrite Nat2Z.id. Qed.

Lemma run_S (a m : nat) : run a (S m) = Z.of_nat a :: run (S a) m.
Proof. reflexivity. Qed.

Lemma length_run (a m : nat) : length (run a m) = m.
Proof. unfold run. now rewrite length_map, length_seq. Qed.

Lemma in_combinations_run (m : nat) : forall (a k : nat) (c : list Z),
  In c (combinations (run a m) k) <->
  length c = k /\ StronglySorted Z.lt c /\
  Forall (fun i => Z.of_nat a <= i < Z.of_nat (a + m)) c.
Proof.
  induction m as [|m IH]; intros a [|k] c.
  - cbn. split.
    + intros [<-|[]]. repeat split; constructor.
    + intros (H & _). destruct c; [now left|discriminate].
  - cbn. split; [tauto|]. intros (Hl & _ & Hf).
    destruct c as [|x c]; [discriminate|].
    inversion Hf; subst. lia.
  - cbn. split.
    + intros [<-|[]]. repeat split; constructor.
    + intros (H & _). destruct c; [now left|discriminate].
  - rewrite run_S. cbn [combinations]. rewrite in_app_iff, in_map_iff. split.
    + intros [(c' & <- & Hin)|Hin].
      * apply IH in Hin. destruct Hin as (Hl & Hs & Hf).
        split; [cbn; lia|]. split.
        -- constructor; [exact Hs|].
           eapply Forall_impl; [|exact Hf]. cbn; intros; lia.
        -- constructor; [lia|].
           eapply Forall_impl; [|exact Hf]. cbn; intros; lia.
      * apply IH in Hin. destruct Hin as (Hl & Hs & Hf).
        split; [exact Hl|]. split; [exact Hs|].
        eapply Forall_impl; [|exact Hf]. cbn; intros; lia.
    + intros (Hl & Hs & Hf).
      destruct c as [|x c]; [discriminate|].
      inversion Hs as [|? ? Hs' Hlt]; subst.
      inversion Hf as [|? ? Hx Hf']; subst.
      destruct (Z.eq_dec x (Z.of_nat a)) as [->|Hne].
      * left. exists c. split; [reflexivity|].
        apply IH. split; [cbn in Hl; lia|]. split; [exact Hs'|].
        rewrite Forall_forall in *. intros i Hi.
        specialize (Hlt i Hi). specialize (Hf' i Hi). cbn in *. lia.
      * right. apply IH. split; [exact Hl|]. split; [exact Hs|].
        constructor; [lia|].
        rewrite Forall_forall in *. intros i Hi.
        specialize (Hlt i Hi). specialize (Hf' i Hi). cbn in *. lia.
Qed.

Lemma lex_lt_irrefl (c : list Z) : ~ lex_lt c c.
Proof.
  induction c as [|x c IH]; intros H; inversion H; subst; [lia|auto].
Qed.

Lemma StronglySorted_app {A : Type} (R : A -> A -> Prop) (l1 l2 : list A) :
  StronglySorted R l1 -> StronglySorted R l2 ->
  (forall x y, In x l1 -> In y l2 -> R x y) ->
  StronglySorted R (l1 ++ l2).
Proof.
  induction 1 as [|x l1 Hs IH Hx]; intros H2 Hc; [exact H2|].
  cbn. constructor.
  - apply IH; [exact H2|]. intros; apply Hc; [now right|assumption].
  - apply Forall_app. split; [exact Hx|].
    apply Forall_forall. intros y Hy. apply Hc; [now left|assumption].
Qed.

Lemma StronglySorted_lex_cons (x : Z) (L : list (list Z)) :
  StronglySorted lex_lt L -> StronglySorted lex_lt (map (cons x) L).
Proof.
  induction 1 as [|c L Hs IH Hc]; cbn; constructor; [exact IH|].
  rewrite Forall_forall in *. intros c' Hin.
  apply in_map_iff in Hin. destruct Hin as (c0 & <- & Hin).
  apply lex_lt_tail; auto.
Qed.

Lemma combinations_lex_sorted (m : nat) : forall a k : nat,
  StronglySorted lex_lt (combinations (run a m) k).
Proof.
  induction m as [|m IH]; intros a [|k]; try rewrite run_S;
    cbn [combinations]; try (repeat constructor).
  apply StronglySorted_app.
  - apply StronglySorted_lex_cons, IH.
  - apply IH.
  - intros c1 c2 H1 H2.
    apply in_map_iff in H1. destruct H1 as (c' & <- & _).
    apply in_combinations_run in H2. destruct H2 as (Hl & _ & Hf).
    destruct c2 as [|y c2]; [discriminate|].
    inversion Hf; subst. apply lex_lt_head. lia.
Qed.

Lemma StronglySorted_NoDup {A : Type} (R : A -> A -> Prop) (l : list A) :
  (forall x, ~ R x x) -> StronglySorted R l -> NoDup l.
Proof.
  intros Hirr. induction 1 as [|x l Hs IH Hx]; constructor; [|exact IH].
  intros Hin. rewrite Forall_forall in Hx. exact (Hirr x (Hx x Hin)).
Qed.

Lemma combinations_NoDup (a m k : nat) : NoDup (combinations (run a m) k).
Proof.
  eapply StronglySorted_NoDup; [exact lex_lt_irrefl|].
  apply combinations_lex_sorted.
Qed.

(** ** The downward scan *)

Lemma scan_S (x k : nat) (above : Z) :
  scan (S x) (Z.of_nat k) above =
  if pascal x k <=? above then Ok (Z.of_nat x, pascal x k)
  else scan x (Z.of_nat k) above.
Proof. cbn [scan]. rewrite math_comb_nat. reflexivity. Qed.

Lemma scan_cases (m k : nat) (above : Z) :
  scan m (Z.of_nat k) above = Raise StopIteration \/
  exists x : nat, (x < m)%nat /\ pascal x k <= above /\
    scan m (Z.of_nat k) above = Ok (Z.of_nat x, pascal x k).
Proof.
  induction m as [|m IH]; [now left|].
  rewrite scan_S. destruct (Z.leb_spec (pascal m k) above).
  - right. exists m. repeat split; [lia|assumption].
  - destruct IH as [IH|(x & Hx & Hle & IH)]; [now left|].
    right. exists x. repeat split; [lia|assumption|assumption].
Qed.

Lemma scan_negative (m k : nat) (above : Z) :
  above < 0 -> scan m (Z.of_nat k) above = Raise StopIteration.
Proof.
  intros H. induction m as [|m IH]; [reflexivity|].
  rewrite scan_S. pose proof (pascal_nonneg m k).
  destruct (Z.leb_spec (pascal m k) above); [lia|exact IH].
Qed.

(** With nothing left above, the scan stops at the largest [x] whose
    binomial coefficient vanishes. *)
Lemma scan_zero (m k : nat) :
  (k < m)%nat -> scan m (Z.of_nat (S k)) 0 = Ok (Z.of_nat k, 0).
Proof.
  induction m as [|m IH]; intros H; [lia|].
  rewrite scan_S. destruct (Nat.eq_dec m k) as [->|Hne].
  - rewrite pascal_gt by lia. reflexivity.
  - pose proof (pascal_pos m (S k) ltac:(lia)).
    destruct (Z.leb_spec (pascal m (S k)) 0); [lia|]. apply IH. lia.
Qed.

(** ** The selection loop *)

Lemma comb_loop_S (i : nat) (n : Z) (res : list Z) (n_p k_p above : Z) :
  comb_loop (S i) n res n_p k_p above =
  bind (scan (Z.to_nat n_p) k_p above)
    (fun xb => comb_loop i n (res ++ [n - 1 - fst xb]) (fst xb) (k_p - 1)
                 (above - snd xb)).
Proof.
  cbn [comb_loop]. destruct (scan (Z.to_nat n_p) k_p above) as [[x b]|e];
    reflexivity.
Qed.

(** The loop entered with [m] candidates left, [k] picks to make and the
    complementary rank of [idx] emits the [idx]-th combination of the run
    that is still open. *)
Lemma comb_loop_unranks (m : nat) : forall (a k idx : nat) (res : list Z),
  Z.of_nat idx < pascal m k ->
  exists c,
    nth_error (combinations (run a m) k) idx = Some c /\
    comb_loop k (Z.of_nat (a + m)) res (Z.of_nat m) (Z.of_nat k)
      (pascal m k - 1 - Z.of_nat idx) = Ok (res ++ c).
Proof.
  induction m as [|m IH]; intros a [|k] idx res H.
  - cbn in H. assert (idx = 0%nat) as -> by lia.
    exists []. split; [reflexivity|]. cbn. now rewrite app_nil_r.
  - cbn in H. lia.
  - rewrite pascal_0_r in H. assert (idx = 0%nat) as -> by lia.
    exists []. split; [reflexivity|]. cbn. now rewrite app_nil_r.
  - rewrite run_S, combinations_nth_cons, length_run.
    rewrite comb_loop_S, Nat2Z.id, scan_S.
    rewrite pascal_S in *.
    pose proof (combinations_length (run (S a) m) k) as Hlen.
    rewrite length_run in Hlen.
    destruct (Z.ltb_spec (Z.of_nat idx) (pascal m k)) as [Hlt|Hge].
    + destruct (Z.leb_spec (pascal m (S k))
                  (pascal m k + pascal m (S k) - 1 - Z.of_nat idx));
        [|lia].
      cbn [bind fst snd].
      destruct (IH (S a) k idx (res ++ [Z.of_nat (a + S m) - 1 - Z.of_nat m])
                  Hlt) as (c & Hn & Hl).
      exists (Z.of_nat a :: c). rewrite Hn. split; [reflexivity|].
      replace (Z.of_nat (S k) - 1) with (Z.of_nat k) by lia.
      replace (S a + m)%nat with (a + S m)%nat in Hl by lia.
      replace (pascal m k + pascal m (S k) - 1 - Z.of_nat idx
               - pascal m (S k))
        with (pascal m k - 1 - Z.of_nat idx) by lia.
      rewrite Hl, <- app_assoc. cbn [app]. do 3 f_equal. lia.
    + destruct (Z.leb_spec (pascal m (S k))
                  (pascal m k + pascal m (S k) - 1 - Z.of_nat idx));
        [lia|].
      destruct (IH (S a) (S k) (idx - length (combinations (run (S a) m) k))%nat
                  res ltac:(lia)) as (c & Hn & Hl).
      exists c. split; [exact Hn|].
      rewrite comb_loop_S, Nat2Z.id in Hl.
      replace (S a + m)%nat with (a + S m)%nat in Hl by lia.
      replace (pascal m (S k) - 1
               - Z.of_nat (idx - length (combinations (run (S a) m) k)))
        with (pascal m k + pascal m (S k) - 1 - Z.of_nat idx) in Hl by lia.
      exact Hl.
Qed.

(** A complementary rank at or beyond the last one is capped: the scan
    takes the first candidate every time. *)
Lemma comb_loop_saturated (k : nat) : forall (m a : nat) (res : list Z)
    (above : Z),
  (k <= m)%nat -> pascal m k - 1 <= above ->
  comb_loop k (Z.of_nat (a + m)) res (Z.of_nat m) (Z.of_nat k) above
  = Ok (res ++ run a k).
Proof.
  induction k as [|k IH]; intros m a res above Hk Ha.
  - cbn. now rewrite app_nil_r.
  - destruct m as [|m]; [lia|].
    rewrite comb_loop_S, Nat2Z.id, scan_S. rewrite pascal_S in Ha.
    pose proof (pascal_pos m k ltac:(lia)).
    destruct (Z.leb_spec (pascal m (S k)) above); [|lia].
    cbn [bind fst snd].
    replace (Z.of_nat (S k) - 1) with (Z.of_nat k) by lia.
    replace (a + S m)%nat with (S a + m)%nat by lia.
    rewrite IH by lia.
    rewrite run_S, <- app_assoc. cbn [app]. do 3 f_equal. lia.
Qed.

(** A complementary rank of zero selects the last combination. *)
Lemma comb_loop_zero (k : nat) : forall (m n : nat) (res : list Z),
  (k <= m)%nat -> (m <= n)%nat ->
  comb_loop k (Z.of_nat n) res (Z.of_nat m) (Z.of_nat k) 0
  = Ok (res ++ run (n - k) k).
Proof.
  induction k as [|k IH]; intros m n res Hk Hm.
  - cbn. now rewrite app_nil_r.
  - rewrite comb_loop_S, Nat2Z.id, scan_zero by lia.
    cbn [bind fst snd].
    replace (Z.of_nat (S k) - 1) with (Z.of_nat k) by lia.
    rewrite Z.sub_0_r, IH by lia.
    rewrite run_S, <- app_assoc. cbn [app].
    replace (S (n - S k)) with (n - k)%nat by lia.
    do 3 f_equal. lia.
Qed.

(** With more picks to make than candidates left, some scan runs dry. *)
Lemma comb_loop_exhausts (k : nat) : forall (m : nat) (n : Z)
    (res : list Z) (above : Z),
  (m < k)%nat ->
  comb_loop k n res (Z.of_nat m) (Z.of_nat k) above = Raise StopIteration.
Proof.
  induction k as [|k IH]; intros m n res above H; [lia|].
  rewrite comb_loop_S, Nat2Z.id.
  destruct (scan_cases m (S k) above) as [->|(x & Hx & _ & ->)];
    [reflexivity|].
  cbn [bind fst snd].
  replace (Z.of_nat (S k) - 1) with (Z.of_nat k) by lia.
  apply IH. lia.
Qed.

Lemma comb_loop_negative (k : nat) (n : Z) (res : list Z) (n_p above : Z) :
  above < 0 ->
  comb_loop (S k) n res n_p (Z.of_nat (S k)) above = Raise StopIteration.
Proof.
  intros H. rewrite comb_loop_S, scan_negative by assumption. reflexivity.
Qed.

(** ** [_get_ith_comb] on natural arguments *)

Lemma get_ith_comb_nat (n k : nat) (idx : Z) :
  _get_ith_comb (Z.of_nat n) (Z.of_nat k) idx =
  comb_loop k (Z.of_nat n) [] (Z.of_nat n) (Z.of_nat k)
    (pascal n k - 1 - idx).
Proof.
  unfold _get_ith_comb. rewrite math_comb_nat. cbn [bind].
  now rewrite Nat2Z.id.
Qed.

Lemma get_ith_comb_nth (n k idx : nat) :
  Z.of_nat idx < pascal n k ->
  exists c,
    nth_error (combinations (run 0 n) k) idx = Some c /\
    _get_ith_comb (Z.of_nat n) (Z.of_nat k) (Z.of_nat idx) = Ok c.
Proof.
  intros H. rewrite get_ith_comb_nat.
  destruct (comb_loop_unranks n 0 k idx [] H) as (c & Hn & Hl).
  exists c. split; [exact Hn|exact Hl].
Qed.

Lemma is_comb_in_combinations (n k : nat) (c : list Z) :
  In c (combinations (py_range (Z.of_nat n)) k) <->
  is_comb (Z.of_nat n) (Z.of_nat k) c.
Proof.
  rewrite py_range_run, in_combinations_run. unfold is_comb, len. cbn.
  split; intros (Hl & Hs & Hf); (split; [lia|split; assumption]).
Qed.

Lemma get_ith_comb_capped (n k : nat) (idx : Z) :
  (k <= n)%nat -> idx <= 0 ->
  _get_ith_comb (Z.of_nat n) (Z.of_nat k) idx = Ok (py_range (Z.of_nat k)).
Proof.
  intros Hk Hi. rewrite get_ith_comb_nat, py_range_run.
  apply (comb_loop_saturated k n 0 []); [exact Hk|lia].
Qed.

Lemma get_ith_comb_last (n k : nat) :
  (k <= n)%nat ->
  _get_ith_comb (Z.of_nat n) (Z.of_nat k) (pascal n k - 1)
  = Ok (run (n - k) k).
Proof.
  intros Hk. rewrite get_ith_comb_nat.
  replace (pascal n k - 1 - (pascal n k - 1)) with 0 by lia.
  apply (comb_loop_zero k n n []); lia.
Qed.

Lemma run_shift (a k : nat) :
  run a k = map (fun i => Z.of_nat a + i) (py_range (Z.of_nat k)).
Proof.
  rewrite py_range_run. unfold run. rewrite map_map.
  replace a with (a + 0)%nat at 1 by lia. generalize 0%nat as b.
  induction k as [|k IH]; intros b; [reflexivity|].
  cbn [seq map]. f_equal; [lia|].
  replace (S (a + b)) with (a + S b)%nat by lia. apply IH.
Qed.

(** ** The unranker: the claims *)

(** The entry of rank [idx], for integer arguments. *)
Lemma get_ith_comb_entry (n k idx : Z) :
  0 <= k <= n -> 0 <= idx < comb_prod n (Z.to_nat k) ->
  exists c,
    _get_ith_comb n k idx = Ok c /\
    nth_error (combinations (py_range n) (Z.to_nat k)) (Z.to_nat idx)
    = Some c /\
    is_comb n k c.
Proof.
  intros Hk Hi. as_nat n n0. as_nat k k0.
  rewrite comb_prod_pascal in Hi.
  destruct (get_ith_comb_nth n0 k0 (Z.to_nat idx)) as (c & Hc & Hg); [lia|].
  rewrite Z2Nat.id in Hg by lia. rewrite <- py_range_run in Hc.
  exists c. split; [exact Hg|]. split; [exact Hc|].
  apply is_comb_in_combinations. eapply nth_error_In; exact Hc.
Qed.

(** C1.  For [0 <= k <= n] the list [combinations (range n) k] is the
    canonical enumeration: it has [C(n, k)] entries, is strictly ascending
    in the element-by-element order and holds exactly the ascending
    [k]-tuples over [{0, ..., n-1}].  For every [idx] in [[0, C(n, k))]
    [_get_ith_comb n k idx] returns the entry of index [idx], an ascending
    tuple of [k] distinct indices below [n]; distinct ranks give distinct
    combinations and every combination is the image of a rank. *)
Theorem get_ith_comb_unranks (n k : Z) :
  0 <= k <= n ->
  let total := comb_prod n (Z.to_nat k) in
  let all := combinations (py_range n) (Z.to_nat k) in
  math_comb n k = Ok total /\
  len all = total /\
  StronglySorted lex_lt all /\
  (forall c, In c all <-> is_comb n k c) /\
  (forall idx, 0 <= idx < total ->
     exists c, _get_ith_comb n k idx = Ok c /\
               nth_error all (Z.to_nat idx) = Some c /\
               is_comb n k c) /\
  (forall i j c, 0 <= i < total -> 0 <= j < total ->
     _get_ith_comb n k i = Ok c -> _get_ith_comb n k j = Ok c -> i = j) /\
  (forall c, is_comb n k c ->
     exists idx, 0 <= idx < total /\ _get_ith_comb n k idx = Ok c).
Proof.
  intros Hk. as_nat n n0. as_nat k k0. intros total all.
  assert (Ht : total = pascal n0 k0) by apply comb_prod_pascal.
  assert (Hlen : len all = total).
  { unfold all, len. rewrite combinations_length, Ht, py_range_run.
    now rewrite length_run. }
  assert (Hin : forall c, In c all <-> is_comb (Z.of_nat n0) (Z.of_nat k0) c)
    by (intros c; apply is_comb_in_combinations).
  assert (Hget : forall idx, 0 <= idx < total ->
     exists c, _get_ith_comb (Z.of_nat n0) (Z.of_nat k0) idx = Ok c /\
               nth_error all (Z.to_nat idx) = Some c).
  { intros idx Hi.
    destruct (get_ith_comb_entry (Z.of_nat n0) (Z.of_nat k0) idx Hk)
      as (c & Hg & Hc & _); [now rewrite Nat2Z.id|].
    rewrite Nat2Z.id in Hc. exists c. split; assumption. }
  assert (Hnd : NoDup all).
  { unfold all. rewrite py_range_run. apply combinations_NoDup. }
  split; [rewrite Ht; apply math_comb_nat|].
  split; [exact Hlen|].
  split; [unfold all; rewrite py_range_run;
          apply combinations_lex_sorted|].
  split; [exact Hin|].
  split; [|split].
  - intros idx Hi. destruct (Hget idx Hi) as (c & Hg & Hc).
    exists c. split; [exact Hg|]. split; [exact Hc|].
    apply Hin. eapply nth_error_In; exact Hc.
  - intros i j c Hi Hj Gi Gj.
    destruct (Hget i Hi) as (ci & Hgi & Hci).
    destruct (Hget j Hj) as (cj & Hgj & Hcj).
    assert (ci = c) by congruence. assert (cj = c) by congruence. subst.
    assert (Z.to_nat i = Z.to_nat j); [|lia].
    rewrite NoDup_nth_error in Hnd. apply Hnd; [|congruence].
    unfold len in Hlen. lia.
  - intros c Hc. apply Hin in Hc.
    apply In_nth_error in Hc. destruct Hc as (i & Hi).
    assert (i < length all)%nat by (apply nth_error_Some; congruence).
    unfold len in Hlen.
    destruct (Hget (Z.of_nat i) ltac:(lia)) as (c' & Hg & Hc').
    rewrite Nat2Z.id in Hc'. exists (Z.of_nat i).
    split; [lia|]. congruence.
Qed.

Lemma get_ith_comb_unranks_witness :
  exists c, _get_ith_comb 5 2 4 = Ok c /\
            nth_error (combinations (py_range 5) 2) 4 = Some c /\
            is_comb 5 2 c.
Proof.
  destruct (get_ith_comb_unranks 5 2 ltac:(lia))
    as (_ & _ & _ & _ & H & _).
  exact (H 4 ltac:(split; [lia|reflexivity])).
Defined.

(** C5.  For [0 <= k <= n], rank [0] gives [[0, ..., k-1]] and rank
    [C(n, k) - 1] gives [[n-k, ..., n-1]]; [k = 0] gives the empty
    sequence and [k = n] gives [[0, ..., n-1]]. *)
Theorem get_ith_comb_boundary (n k : Z) :
  0 <= k <= n ->
  _get_ith_comb n k 0 = Ok (py_range k) /\
  _get_ith_comb n k (comb_prod n (Z.to_nat k) - 1)
    = Ok (map (fun i => n - k + i) (py_range k)) /\
  _get_ith_comb n 0 0 = Ok [] /\
  _get_ith_comb n n 0 = Ok (py_range n).
Proof.
  intros Hk. as_nat n n0. as_nat k k0. repeat split.
  - apply get_ith_comb_capped; lia.
  - rewrite comb_prod_pascal, get_ith_comb_last by lia.
    rewrite run_shift. f_equal. apply map_ext. intros; lia.
  - apply (get_ith_comb_capped n0 0); lia.
  - apply get_ith_comb_capped; lia.
Qed.

Lemma get_ith_comb_boundary_witness :
  _get_ith_comb 5 2 0 = Ok (py_range 2) /\
  _get_ith_comb 5 2 (comb_prod 5 (Z.to_nat 2) - 1)
    = Ok (map (fun i => 5 - 2 + i) (py_range 2)) /\
  _get_ith_comb 5 0 0 = Ok [] /\
  _get_ith_comb 5 5 0 = Ok (py_range 5).
Proof. apply (get_ith_comb_boundary 5 2). lia. Defined.

(** C9.  With [k = 0] the loop body never runs: for a universe size
    [n >= 0] every integer [idx], negative or beyond [C(n, 0) = 1]
    included, gives the empty list and nothing is raised. *)
Theorem get_ith_comb_k0_any_idx (n idx : Z) :
  0 <= n -> _get_ith_comb n 0 idx = Ok [].
Proof.
  intros Hn. unfold _get_ith_comb.
  rewrite math_comb_pascal by lia. reflexivity.
Qed.

Lemma get_ith_comb_k0_any_idx_witness :
  _get_ith_comb 5 0 (-3) = Ok [] /\ _get_ith_comb 5 0 7 = Ok [].
Proof.
  split; apply get_ith_comb_k0_any_idx; lia.
Defined.

(** C10.  For [1 <= k <= n], rank [-1] raises nothing and gives
    [[0, ..., k-1]], the result of rank [0]. *)
Theorem get_ith_comb_minus_one (n k : Z) :
  1 <= k <= n ->
  _get_ith_comb n k (-1) = Ok (py_range k) /\
  _get_ith_comb n k (-1) = _get_ith_comb n k 0.
Proof.
  intros Hk. as_nat n n0. as_nat k k0.
  rewrite !get_ith_comb_capped by lia. split; reflexivity.
Qed.

Lemma get_ith_comb_minus_one_witness :
  _get_ith_comb 5 2 (-1) = Ok (py_range 2) /\
  _get_ith_comb 5 2 (-1) = _get_ith_comb 5 2 0.
Proof. apply (get_ith_comb_minus_one 5 2). lia. Defined.

(** C3, as the code has it.  A negative [n] or [k] raises [ValueError]
    (from [math.comb]); with [n >= 0] and [k >= 1], a [k] above [n] or a
    rank at or beyond [C(n, k)] raises [StopIteration].  Nothing validates
    the rank from below: with [0 <= k <= n] every negative rank returns
    [[0, ..., k-1]], and with [k = 0] every rank returns the empty list. *)
Theorem get_ith_comb_out_of_domain (n k idx : Z) :
  (n < 0 \/ k < 0 -> _get_ith_comb n k idx = Raise ValueError) /\
  (0 <= n -> 1 <= k -> n < k \/ comb_prod n (Z.to_nat k) <= idx ->
   _get_ith_comb n k idx = Raise StopIteration) /\
  (0 <= k <= n -> idx < 0 -> _get_ith_comb n k idx = Ok (py_range k)) /\
  (0 <= n -> k = 0 -> _get_ith_comb n k idx = Ok []).
Proof.
  repeat split.
  - intros H. unfold _get_ith_comb. now rewrite math_comb_negative.
  - intros Hn Hk H. as_nat n n0. as_nat k k0.
    rewrite comb_prod_pascal in H. rewrite get_ith_comb_nat.
    destruct (Nat.lt_ge_cases n0 k0) as [Hlt|Hge].
    + now apply comb_loop_exhausts.
    + destruct k0 as [|k1]; [lia|]. apply comb_loop_negative. lia.
  - intros Hk Hi. as_nat n n0. as_nat k k0.
    apply get_ith_comb_capped; lia.
  - intros Hn ->. unfold _get_ith_comb.
    rewrite math_comb_pascal by lia. reflexivity.
Qed.

Lemma get_ith_comb_out_of_domain_witness :
  _get_ith_comb (-1) 2 0 = Raise ValueError /\
  _get_ith_comb 5 2 10 = Raise StopIteration /\
  _get_ith_comb 5 2 (-4) = Ok (py_range 2) /\
  _get_ith_comb 5 0 9 = Ok [].
Proof.
  split; [|split; [|split]].
  - apply (get_ith_comb_out_of_domain (-1) 2 0). lia.
  - apply (get_ith_comb_out_of_domain 5 2 10); [lia|lia|right; discriminate].
  - apply (get_ith_comb_out_of_domain 5 2 (-4)); lia.
  - apply (get_ith_comb_out_of_domain 5 0 9); lia.
Defined.

(** C3 as stated fails: rank [-1] is not rejected, and with [k = 0] the
    rank [C(n, 0) = 1] is not rejected either. *)
Lemma get_ith_comb_no_range_check :
  ~ (forall n k, 0 <= k <= n ->
       raises (_get_ith_comb n k (comb_prod n (Z.to_nat k))) /\
       raises (_get_ith_comb n k (-1))).
Proof.
  intros H. destruct (H 5 2 ltac:(lia)) as (_ & e & He).
  discriminate He.
Qed.

(** ** The symbol selector *)

Lemma all_distinct_NoDup (l : list string) :
  all_distinct l = true -> NoDup l.
Proof.
  induction l as [|x t IH]; intros H; constructor;
    cbn in H; apply andb_prop in H; destruct H as (Hx & Ht).
  - intros Hin. apply negb_true_iff in Hx.
    assert (existsb (String.eqb x) t = true); [|congruence].
    apply existsb_exists. exists x. split; [exact Hin|apply String.eqb_refl].
  - exact (IH Ht).
Qed.

Lemma SP_500_NoDup : NoDup SP_500.
Proof. apply all_distinct_NoDup. vm_compute. reflexivity. Qed.

Lemma py_getitem_in_range {A : Type} (d : A) (l : list A) (i : Z) :
  0 <= i < len l -> py_getitem l i = Ok (nth (Z.to_nat i) l d).
Proof.
  intros H. unfold py_getitem, len in *.
  destruct (Z.ltb_spec i 0); [lia|]. destruct (Z.ltb_spec i 0); [lia|].
  destruct (nth_error l (Z.to_nat i)) as [a|] eqn:E.
  - now rewrite (nth_error_nth _ _ d E).
  - apply nth_error_None in E. lia.
Qed.

Lemma comprehension_getitem {A : Type} (d : A) (l : list A) (c : list Z) :
  Forall (fun i => 0 <= i < len l) c ->
  comprehension (py_getitem l) c
  = Ok (map (fun i => nth (Z.to_nat i) l d) c).
Proof.
  induction 1 as [|i c Hi Hc IH]; [reflexivity|].
  cbn [comprehension map]. rewrite (py_getitem_in_range d), IH by exact Hi.
  reflexivity.
Qed.

Lemma select_NoDup {A : Type} (d : A) (l : list A) (c : list Z) :
  NoDup l -> StronglySorted Z.lt c ->
  Forall (fun i => 0 <= i < len l) c ->
  NoDup (map (fun i => nth (Z.to_nat i) l d) c).
Proof.
  intros Hl Hs Hf. apply NoDup_map_NoDup_ForallPairs.
  - intros i j Hi Hj E. rewrite Forall_forall in Hf.
    pose proof (Hf i Hi). pose proof (Hf j Hj). unfold len in *.
    rewrite NoDup_nth in Hl.
    assert (Z.to_nat i = Z.to_nat j); [|lia].
    apply (Hl (Z.to_nat i) (Z.to_nat j)); [lia|lia|exact E].
  - eapply StronglySorted_NoDup; [|exact Hs]. intros x; lia.
Qed.

(** C8.  For every [choice] in [[0, C(N, K))], with [N = len(SP_500)] and
    [K = N_PICKS = 4], [_pick_sp500_symbols] returns exactly [K] labels,
    each taken from [SP_500], without repetition, the [i]-th one being
    [SP_500[comb[i]]] for the strictly increasing combination [comb] that
    [_get_ith_comb] returns. *)
Theorem pick_sp500_symbols_selects (choice : Z) :
  0 <= choice < comb_prod (len SP_500) (Z.to_nat N_PICKS) ->
  exists comb out,
    _get_ith_comb (len SP_500) N_PICKS choice = Ok comb /\
    _pick_sp500_symbols choice = Ok out /\
    len out = N_PICKS /\
    Forall (fun s => In s SP_500) out /\
    NoDup out /\
    is_comb (len SP_500) N_PICKS comb /\
    out = map (fun i => nth (Z.to_nat i) SP_500 EmptyString) comb.
Proof.
  intros H.
  destruct (get_ith_comb_entry (len SP_500) N_PICKS choice
              ltac:(vm_compute; split; discriminate) H)
    as (comb & Hg & _ & Hc).
  pose proof Hc as (Hlen & Hs & Hf).
  exists comb, (map (fun i => nth (Z.to_nat i) SP_500 EmptyString) comb).
  split; [exact Hg|]. split; [|split; [|split; [|split; [|split]]]].
  - unfold _pick_sp500_symbols. rewrite Hg. cbn [bind].
    now apply comprehension_getitem.
  - unfold len in *. now rewrite length_map.
  - apply Forall_map. eapply Forall_impl; [|exact Hf].
    intros i Hi. apply nth_In. unfold len in Hi. lia.
  - apply select_NoDup; [exact SP_500_NoDup|exact Hs|exact Hf].
  - exact Hc.
  - reflexivity.
Qed.

Lemma pick_sp500_symbols_selects_witness :
  exists comb out,
    _get_ith_comb (len SP_500) N_PICKS 2146456873 = Ok comb /\
    _pick_sp500_symbols 2146456873 = Ok out /\
    len out = N_PICKS /\
    Forall (fun s => In s SP_500) out /\
    NoDup out /\
    is_comb (len SP_500) N_PICKS comb /\
    out = map (fun i => nth (Z.to_nat i) SP_500 EmptyString) comb.
Proof.
  apply (pick_sp500_symbols_selects 2146456873).
  split; [lia|reflexivity].
Defined.

(** ** The digest bit string *)

Lemma concat_str_int (bits : list bool) :
  String.concat "" (map str_int bits) = digits bits.
Proof.
  induction bits as [|b [|b' t] IH]; [reflexivity|now destruct b|].
  change (String.concat "" (map str_int (b :: b' :: t)))
    with (str_int b ++ "" ++ String.concat "" (map str_int (b' :: t)))%string.
  rewrite IH. now destruct b.
Qed.

Lemma bin_str_digits (rows cols : list bool) :
  bin_str rows cols = ("0b" ++ digits (pair_bits rows cols))%string.
Proof.
  unfold bin_str, pair_bits. rewrite <- concat_str_int, map_map. reflexivity.
Qed.

Lemma length_digits (bits : list bool) :
  String.length (digits bits) = length bits.
Proof. induction bits as [|b t IH]; cbn; congruence. Qed.

Lemma get_digits (bits : list bool) (i : nat) :
  String.get i (digits bits) =
  option_map (fun b : bool => if b then "1" else "0")%char
    (nth_error bits i).
Proof.
  revert i; induction bits as [|b t IH]; intros [|i]; cbn; auto.
Qed.

Lemma parse_bits_digits (bits : list bool) (acc : Z) :
  parse_bits (digits bits) acc =
  Ok (fold_left (fun a (b : bool) => 2 * a + Z.b2z b) bits acc).
Proof.
  revert acc; induction bits as [|b t IH]; intros acc; [reflexivity|].
  cbn [digits parse_bits fold_left]. destruct b; cbn; apply IH.
Qed.

Lemma py_int_base2_digits (bits : list bool) :
  bits <> [] ->
  py_int_base2 ("0b" ++ digits bits) = Ok (bits_value bits).
Proof.
  intros H. destruct bits as [|b t]; [contradiction|].
  exact (parse_bits_digits (b :: t) 0).
Qed.

Lemma bits_value_snoc (bits : list bool) (b : bool) :
  bits_value (bits ++ [b]) = 2 * bits_value bits + Z.b2z b.
Proof. unfold bits_value. now rewrite fold_left_app. Qed.

Lemma bits_value_range (bits : list bool) :
  0 <= bits_value bits < 2 ^ Z.of_nat (length bits).
Proof.
  induction bits as [|b bits IH] using rev_ind; [cbn; lia|].
  rewrite bits_value_snoc, length_app, Nat2Z.inj_add, Z.pow_add_r by lia.
  cbn [length]. change (2 ^ Z.of_nat 1) with 2.
  destruct b; cbn [Z.b2z]; lia.
Qed.

(** The bit of index [i], counted from the front, has weight
    [2 ^ (length - 1 - i)]. *)
Lemma bits_value_testbit (bits : list bool) : forall (i : nat) (b : bool),
  nth_error bits i = Some b ->
  Z.testbit (bits_value bits) (Z.of_nat (length bits) - 1 - Z.of_nat i) = b.
Proof.
  induction bits as [|b' bits IH] using rev_ind; intros i b H.
  - destruct i; discriminate.
  - rewrite bits_value_snoc, length_app, Nat2Z.inj_add. cbn [length].
    destruct (Nat.lt_ge_cases i (length bits)) as [Hlt|Hge].
    + rewrite nth_error_app1 in H by exact Hlt.
      replace (Z.of_nat (length bits) + Z.of_nat 1 - 1 - Z.of_nat i)
        with (Z.succ (Z.of_nat (length bits) - 1 - Z.of_nat i)) by lia.
      rewrite Z.testbit_succ_r by lia. now apply IH.
    + rewrite nth_error_app2 in H by exact Hge.
      assert (i = length bits) as ->.
      { destruct (i - length bits)%nat as [|[|?]] eqn:E; cbn in H;
          try discriminate; lia. }
      rewrite Nat.sub_diag in H. cbn in H. injection H as ->.
      replace (Z.of_nat (length bits) + Z.of_nat 1 - 1
               - Z.of_nat (length bits)) with 0 by lia.
      apply Z.testbit_0_r.
Qed.

Lemma nth_error_list_prod {A B : Type} (l : list A) (l' : list B)
    (i j : nat) (a : A) (b : B) :
  nth_error l i = Some a -> nth_error l' j = Some b ->
  nth_error (list_prod l l') (i * length l' + j) = Some (a, b).
Proof.
  revert i; induction l as [|x t IH]; intros [|i] Hi Hj; try discriminate.
  - cbn in Hi. injection Hi as ->. cbn [list_prod Nat.mul Nat.add].
    assert (j < length l')%nat by (apply nth_error_Some; congruence).
    rewrite nth_error_app1 by (now rewrite length_map).
    rewrite nth_error_map, Hj. reflexivity.
  - cbn in Hi. cbn [list_prod].
    rewrite nth_error_app2 by (rewrite length_map; cbn; lia).
    rewrite length_map.
    replace (S i * length l' + j - length l')%nat
      with (i * length l' + j)%nat by (cbn; lia).
    now apply IH.
Qed.

Lemma nth_error_pair_bits (rows cols : list bool) (i j : nat) :
  (i < length rows)%nat -> (j < length cols)%nat ->
  nth_error (pair_bits rows cols) (i * length cols + j)
  = Some (pair_bit rows cols i j).
Proof.
  intros Hi Hj. unfold pair_bits, pair_bit. rewrite nth_error_map.
  rewrite (nth_error_list_prod rows cols i j
             (nth i rows false) (nth j cols false))
    by (now apply nth_error_nth').
  reflexivity.
Qed.

Lemma length_pair_bits (rows cols : list bool) :
  length (pair_bits rows cols) = (length rows * length cols)%nat.
Proof. unfold pair_bits. now rewrite length_map, length_prod. Qed.

(** C7.  From the thresholded vectors [r] and [c] of [SR_BITS] booleans
    each, [_get_bin_str_from_image] builds ["0b"] followed by exactly
    [SR_BITS ^ 2] binary digits; the digit of index [i * SR_BITS + j] is
    [1] when [r[i] == c[j]] and [0] otherwise (row-major, [i] outer);
    [int(_, 2)] reads the string as the unsigned integer in which that
    digit has weight [2 ^ (SR_BITS ^ 2 - 1 - (i * SR_BITS + j))], the first
    digit being the most significant, so the digest is in
    [[0, 2 ^ (SR_BITS ^ 2))]. *)
Theorem bin_str_digest (img : samples) :
  len (rows_mono_image img) = SR_BITS ->
  len (cols_mono_image img) = SR_BITS ->
  let r := map (fun v => average_l img <? v) (rows_mono_image img) in
  let c := map (fun v => average_l img <? v) (cols_mono_image img) in
  exists (bits : string) (d : Z),
    _get_bin_str_from_image img = ("0b" ++ bits)%string /\
    Z.of_nat (String.length bits) = SR_BITS ^ 2 /\
    py_int_base2 (_get_bin_str_from_image img) = Ok d /\
    0 <= d < 2 ^ (SR_BITS ^ 2) /\
    forall i j : nat, Z.of_nat i < SR_BITS -> Z.of_nat j < SR_BITS ->
      String.get (i * Z.to_nat SR_BITS + j) bits
      = Some (if Bool.eqb (nth i r false) (nth j c false)
              then "1" else "0")%char /\
      Z.testbit d (SR_BITS ^ 2 - 1 - (Z.of_nat i * SR_BITS + Z.of_nat j))
      = Bool.eqb (nth i r false) (nth j c false).
Proof.
  intros Hr Hc r c.
  assert (Hlr : length r = 7%nat).
  { unfold r, len, SR_BITS in *. rewrite length_map. lia. }
  assert (Hlc : length c = 7%nat).
  { unfold c, len, SR_BITS in *. rewrite length_map. lia. }
  assert (Hlen : length (pair_bits r c) = 49%nat)
    by (rewrite length_pair_bits, Hlr, Hlc; reflexivity).
  exists (digits (pair_bits r c)), (bits_value (pair_bits r c)).
  assert (Hs : _get_bin_str_from_image img
               = ("0b" ++ digits (pair_bits r c))%string)
    by apply bin_str_digits.
  split; [exact Hs|]. split; [now rewrite length_digits, Hlen|].
  split.
  { rewrite Hs. apply py_int_base2_digits.
    intros E. rewrite E in Hlen. discriminate. }
  split.
  { pose proof (bits_value_range (pair_bits r c)) as Hb.
    rewrite Hlen in Hb. exact Hb. }
  intros i j Hi Hj. unfold SR_BITS in Hi, Hj.
  pose proof (nth_error_pair_bits r c i j ltac:(lia) ltac:(lia)) as Hn.
  rewrite Hlc in Hn. fold (pair_bit r c i j). split.
  - rewrite get_digits. change (Z.to_nat SR_BITS) with 7%nat.
    rewrite Hn. reflexivity.
  - pose proof (bits_value_testbit _ _ _ Hn) as Ht. rewrite Hlen in Ht.
    rewrite <- Ht. f_equal. unfold SR_BITS. lia.
Qed.

Lemma bin_str_digest_witness :
  exists (bits : string) (d : Z),
    _get_bin_str_from_image
      {| rows_mono_image := [90; 120; 200; 10; 130; 128; 127];
         cols_mono_image := [255; 0; 129; 128; 3; 77; 201];
         average_l := 128 |} = ("0b" ++ bits)%string /\
    Z.of_nat (String.length bits) = SR_BITS ^ 2 /\
    0 <= d < 2 ^ (SR_BITS ^ 2).
Proof.
  destruct (bin_str_digest
              {| rows_mono_image := [90; 120; 200; 10; 130; 128; 127];
                 cols_mono_image := [255; 0; 129; 128; 3; 77; 201];
                 average_l := 128 |} eq_refl eq_refl)
    as (bits & d & H1 & H2 & _ & H4 & _).
  exists bits, d. split; [exact H1|]. split; [exact H2|exact H4].
Defined.

(** ** Rounding to nearest, ties to even *)

Lemma rne_div_cases (N D : Z) :
  0 < D ->
  let q := N / D in
  let r := N mod D in
  N = D * q + r /\ 0 <= r < D /\
  (rne_div N D = q /\ 2 * r <= D \/ rne_div N D = q + 1 /\ D <= 2 * r).
Proof.
  intros HD q r.
  pose proof (Z.div_mod N D ltac:(lia)) as Hdm.
  pose proof (Z.mod_pos_bound N D HD) as Hr.
  split; [exact Hdm|]. split; [exact Hr|].
  unfold rne_div. fold q r.
  destruct (Z.ltb_spec (2 * r) D); [left; lia|].
  destruct (Z.ltb_spec D (2 * r)); [right; lia|].
  destruct (Z.even q); [left|right]; lia.
Qed.

Lemma rne_div_error (N D : Z) :
  0 < D -> 2 * Z.abs (rne_div N D * D - N) <= D.
Proof.
  intros HD. destruct (rne_div_cases N D HD) as (Hdm & Hr & [[-> H]|[-> H]]);
    nia.
Qed.

Lemma rne_div_exact (q D : Z) : 0 < D -> rne_div (q * D) D = q.
Proof.
  intros HD. unfold rne_div.
  rewrite Z.div_mul, Z.mod_mul by lia.
  destruct (Z.ltb_spec (2 * 0) D); [reflexivity|lia].
Qed.

Lemma rne_div_mul_cancel (N D c : Z) :
  0 < D -> 0 < c -> rne_div (N * c) (D * c) = rne_div N D.
Proof.
  intros HD Hc. unfold rne_div.
  rewrite Z.div_mul_cancel_r, Z.mul_mod_distr_r by lia.
  pose proof (Z.mod_pos_bound N D HD).
  destruct (Z.ltb_spec (2 * (N mod D * c)) (D * c)),
           (Z.ltb_spec (2 * (N mod D)) D); try nia; try reflexivity.
  destruct (Z.ltb_spec (D * c) (2 * (N mod D * c))),
           (Z.ltb_spec D (2 * (N mod D))); try nia; reflexivity.
Qed.

Lemma rne_div_between (N D a b : Z) :
  0 < D -> a * D <= N <= b * D -> a <= rne_div N D <= b.
Proof.
  intros HD H. destruct (rne_div_cases N D HD) as (Hdm & Hr & [[-> E]|[-> E]]);
    nia.
Qed.

Lemma rne_div_pos (N D : Z) : 0 < D -> D <= N -> 0 < rne_div N D.
Proof.
  intros HD H. pose proof (rne_div_between N D 1 (N + 1) HD). nia.
Qed.

Lemma pow2_pos (a : Z) : 0 <= a -> 0 < 2 ^ a.
Proof. intros. apply Z.pow_pos_nonneg; lia. Qed.

Lemma pow2_split (a b : Z) : 0 <= a -> 0 <= b -> 2 ^ (a + b) = 2 ^ a * 2 ^ b.
Proof. intros. apply Z.pow_add_r; assumption. Qed.

Lemma log2_bounds (n : Z) : 0 < n -> 2 ^ Z.log2 n <= n < 2 ^ (Z.log2 n + 1).
Proof. intros H. pose proof (Z.log2_spec n H). now rewrite <- Z.add_1_r in *. Qed.

Lemma ilog2_ratio_pow2 (N s : Z) :
  0 < N -> 0 <= s -> ilog2_ratio N (2 ^ s) = Z.log2 N - s.
Proof.
  intros HN Hs. unfold ilog2_ratio. rewrite Z.log2_pow2 by exact Hs.
  pose proof (log2_bounds N HN) as (Hlo & _).
  pose proof (Z.log2_nonneg N) as Hl.
  destruct (Z.leb_spec 0 (Z.log2 N - s)).
  - rewrite <- pow2_split by lia.
    replace (s + (Z.log2 N - s)) with (Z.log2 N) by lia.
    destruct (Z.ltb_spec N (2 ^ Z.log2 N)); [lia|reflexivity].
  - assert (E : 2 ^ s = 2 ^ Z.log2 N * 2 ^ (- (Z.log2 N - s))).
    { rewrite <- pow2_split by lia. f_equal. lia. }
    pose proof (pow2_pos (- (Z.log2 N - s)) ltac:(lia)).
    destruct (Z.ltb_spec (N * 2 ^ (- (Z.log2 N - s))) (2 ^ s));
      [nia|reflexivity].
Qed.

(** ** Rounding an integer to [p] significant bits *)

Lemma round_sig_small (p n : Z) :
  1 <= p -> 0 <= n < 2 ^ p -> round_sig p n = n.
Proof.
  intros Hp Hn. unfold round_sig.
  destruct (Z.leb_spec (Z.log2 n - (p - 1)) 0) as [|Hlt]; [reflexivity|].
  assert (0 < n) by (destruct (Z.eq_dec n 0) as [->|]; [cbn in Hlt|]; lia).
  pose proof (log2_bounds n ltac:(lia)) as (Hlo & _).
  assert (2 ^ p <= 2 ^ Z.log2 n) by (apply Z.pow_le_mono_r; lia). lia.
Qed.

Lemma round_sig_scale (p n c : Z) :
  0 < n -> 0 <= c -> round_sig p (n * 2 ^ c) = round_sig p n * 2 ^ c.
Proof.
  intros Hn Hc. unfold round_sig.
  rewrite Z.log2_mul_pow2 by lia.
  set (t := Z.log2 n - (p - 1)).
  replace (c + Z.log2 n - (p - 1)) with (t + c) by (unfold t; lia).
  pose proof (pow2_pos c Hc).
  destruct (Z.leb_spec t 0), (Z.leb_spec (t + c) 0); try reflexivity;
    try lia.
  - replace (n * 2 ^ c) with (n * 2 ^ (- t) * 2 ^ (t + c)).
    + rewrite rne_div_exact by (apply pow2_pos; lia). reflexivity.
    + rewrite <- Z.mul_assoc, <- pow2_split by lia. do 2 f_equal. lia.
  - rewrite pow2_split by lia.
    rewrite rne_div_mul_cancel by (try apply pow2_pos; lia). ring.
Qed.

Lemma round_sig_error (p n : Z) :
  1 <= p -> 0 < n -> 2 ^ p * Z.abs (round_sig p n - n) <= n.
Proof.
  intros Hp Hn. unfold round_sig. set (t := Z.log2 n - (p - 1)).
  destruct (Z.leb_spec t 0) as [|Ht].
  - rewrite Z.sub_diag. cbn. lia.
  - pose proof (rne_div_error n (2 ^ t) (pow2_pos t ltac:(lia))) as He.
    pose proof (log2_bounds n Hn) as (Hlo & _).
    replace (Z.log2 n) with (p + (t - 1)) in Hlo by (unfold t; lia).
    rewrite pow2_split in Hlo by lia.
    assert (E : 2 ^ t = 2 * 2 ^ (t - 1)).
    { replace t with (1 + (t - 1)) at 1 by lia.
      rewrite pow2_split by lia. reflexivity. }
    set (m := rne_div n (2 ^ t)) in *.
    assert (Z.abs (m * 2 ^ t - n) <= 2 ^ (t - 1)) by lia.
    pose proof (pow2_pos p ltac:(lia)).
    apply Z.le_trans with (2 ^ p * 2 ^ (t - 1)); [|exact Hlo].
    apply Z.mul_le_mono_nonneg_l; lia.
Qed.

(** Rounding never crosses a multiple of a power of two that is at least
    as coarse as the rounding grid. *)
Lemma round_sig_between (p n u a b : Z) :
  0 < n -> 0 <= u -> Z.log2 n - (p - 1) <= u ->
  a * 2 ^ u <= n <= b * 2 ^ u ->
  a * 2 ^ u <= round_sig p n <= b * 2 ^ u.
Proof.
  intros Hn Hu Ht H. unfold round_sig. set (t := Z.log2 n - (p - 1)) in *.
  destruct (Z.leb_spec t 0) as [|Hpos]; [exact H|].
  replace u with ((u - t) + t) in * by lia.
  rewrite pow2_split in * by lia.
  pose proof (pow2_pos t ltac:(lia)) as Hpt.
  pose proof (rne_div_between n (2 ^ t) (a * 2 ^ (u - t)) (b * 2 ^ (u - t))
                Hpt ltac:(lia)).
  nia.
Qed.

Lemma round_sig_pos (p n : Z) : 1 <= p -> 0 < n -> 0 < round_sig p n.
Proof.
  intros Hp Hn. pose proof (round_sig_error p n Hp Hn).
  pose proof (pow2_pos p ltac:(lia)).
  assert (2 <= 2 ^ p) by (change 2 with (2 ^ 1) at 1;
                          apply Z.pow_le_mono_r; lia).
  nia.
Qed.

Lemma round_sig_div_scale (p n1 n2 s1 s2 : Z) :
  0 < n1 -> 0 < n2 -> 0 <= s1 -> 0 <= s2 ->
  n1 * 2 ^ s2 = n2 * 2 ^ s1 ->
  round_sig p n1 / 2 ^ s1 = round_sig p n2 / 2 ^ s2.
Proof.
  intros H1 H2 Hs1 Hs2 E.
  pose proof (pow2_pos s1 Hs1). pose proof (pow2_pos s2 Hs2).
  rewrite <- (Z.div_mul_cancel_r (round_sig p n1) (2 ^ s1) (2 ^ s2)) by lia.
  rewrite <- (Z.div_mul_cancel_r (round_sig p n2) (2 ^ s2) (2 ^ s1)) by lia.
  rewrite <- !round_sig_scale, E by assumption.
  f_equal. ring.
Qed.

(** ** Rounding into binary64 *)

(** The quotient of a positive integer by a power of two, when it neither
    underflows nor overflows, is the integer rounded to 53 significant bits
    over the same power of two. *)
Lemma round_ratio_pow2 (N s : Z) :
  0 < N -> 0 <= s -> 2 ^ (s - 1022) <= N ->
  round_sig 53 N < 2 ^ (1024 + s) ->
  let t := Z.log2 N - 52 in
  exists m,
    round_ratio binary64 N (2 ^ s) = Fin m (t - s) /\
    0 < m /\
    m * 2 ^ Z.max 0 t = round_sig 53 N * 2 ^ Z.max 0 (- t).
Proof.
  intros HN Hs Hlo Hhi t.
  pose proof (log2_bounds N HN) as (Hl & _).
  pose proof (Z.log2_nonneg N) as Hl0.
  assert (Hnorm : s - 1022 <= Z.log2 N).
  { destruct (Z.le_gt_cases (s - 1022) 0); [lia|].
    rewrite <- (Z.log2_pow2 (s - 1022)) by lia.
    apply Z.log2_le_mono. exact Hlo. }
  unfold round_ratio. destruct (Z.eqb_spec N 0); [lia|].
  rewrite Z.abs_eq, ilog2_ratio_pow2 by lia. cbn [prec emin emax binary64].
  rewrite Z.max_l by lia.
  replace (Z.log2 N - s - (53 - 1)) with (t - s) by (unfold t; lia).
  set (m := if 0 <=? t - s then rne_div N (2 ^ s * 2 ^ (t - s))
            else rne_div (N * 2 ^ (- (t - s))) (2 ^ s)).
  assert (Hm : 0 < m /\ m * 2 ^ Z.max 0 t
                        = round_sig 53 N * 2 ^ Z.max 0 (- t)).
  { unfold round_sig. replace (Z.log2 N - (53 - 1)) with t by (unfold t; lia).
    unfold m. destruct (Z.leb_spec t 0) as [Ht|Ht].
    - rewrite (Z.max_l 0 t), (Z.max_r 0 (- t)) by lia.
      rewrite Z.mul_1_r.
      pose proof (pow2_pos (- t) ltac:(lia)).
      destruct (Z.leb_spec 0 (t - s)).
      + assert (t = 0) by lia. assert (s = 0) by lia. subst s.
        replace (t - 0) with 0 by lia. replace (- t) with 0 by lia.
        change (2 ^ 0 * 2 ^ 0) with 1. change (2 ^ 0) with 1.
        assert (E : rne_div N 1 = N)
          by (rewrite <- (Z.mul_1_r N) at 1; apply rne_div_exact; lia).
        rewrite E. lia.
      + replace (N * 2 ^ (- (t - s))) with (N * 2 ^ (- t) * 2 ^ s).
        * rewrite rne_div_exact by (apply pow2_pos; lia). nia.
        * rewrite <- Z.mul_assoc, <- pow2_split by lia. do 2 f_equal. lia.
    - rewrite (Z.max_r 0 t), (Z.max_l 0 (- t)) by lia.
      rewrite Z.mul_1_r.
      pose proof (pow2_pos t ltac:(lia)).
      assert (2 ^ t <= N).
      { apply Z.le_trans with (2 ^ Z.log2 N); [|exact Hl].
        apply Z.pow_le_mono_r; unfold t; lia. }
      pose proof (rne_div_pos N (2 ^ t) ltac:(lia) ltac:(lia)).
      destruct (Z.leb_spec 0 (t - s)).
      + rewrite <- pow2_split by lia.
        replace (s + (t - s)) with t by lia. lia.
      + replace (2 ^ s) with (2 ^ t * 2 ^ (- (t - s))).
        * rewrite rne_div_mul_cancel by (try apply pow2_pos; lia). lia.
        * rewrite <- pow2_split by lia. f_equal. lia. }
  destruct Hm as (Hpos & Hval). exists m.
  rewrite Z.abs_eq by lia.
  destruct (Z.leb_spec (2 ^ (1024 - (t - s))) m) as [Hov|]; [|now split].
  exfalso.
  destruct (Z.le_gt_cases t 0) as [Ht|Ht].
  - rewrite (Z.max_l 0 t), (Z.max_r 0 (- t)), Z.mul_1_r in Hval by lia.
    replace (1024 - (t - s)) with ((1024 + s) + (- t)) in Hov by lia.
    rewrite pow2_split in Hov by lia.
    pose proof (pow2_pos (- t) ltac:(lia)). nia.
  - rewrite (Z.max_r 0 t), (Z.max_l 0 (- t)), Z.mul_1_r in Hval by lia.
    pose proof (pow2_pos t ltac:(lia)).
    destruct (Z.le_gt_cases t (1024 + s)).
    + replace (1024 + s) with ((1024 - (t - s)) + t) in Hhi by lia.
      rewrite pow2_split in Hhi by lia. nia.
    + assert (2 ^ (1024 + s) <= 2 ^ t) by (apply Z.pow_le_mono_r; lia).
      nia.
Qed.

Lemma math_floor_scaled (m t s R : Z) :
  0 <= s -> m * 2 ^ Z.max 0 t = R * 2 ^ Z.max 0 (- t) ->
  math_floor (Fin m (t - s)) = Ok (R / 2 ^ s).
Proof.
  intros Hs E. cbn [math_floor]. f_equal.
  pose proof (pow2_pos s Hs).
  destruct (Z.le_gt_cases 0 t) as [Ht|Ht].
  - rewrite (Z.max_r 0 t), (Z.max_l 0 (- t)), Z.mul_1_r in E by lia.
    subst R. destruct (Z.leb_spec 0 (t - s)).
    + replace t with ((t - s) + s) at 2 by lia.
      rewrite pow2_split, Z.mul_assoc, Z.div_mul by lia. reflexivity.
    + replace s with ((- (t - s)) + t) at 2 by lia.
      rewrite pow2_split by lia.
      rewrite Z.div_mul_cancel_r by (apply Z.neq_sym, Z.lt_neq, pow2_pos; lia).
      reflexivity.
  - rewrite (Z.max_l 0 t), (Z.max_r 0 (- t)), Z.mul_1_r in E by lia.
    subst m. destruct (Z.leb_spec 0 (t - s)); [lia|].
    replace (- (t - s)) with (s + (- t)) by lia.
    rewrite pow2_split by lia.
    rewrite Z.div_mul_cancel_r by (apply Z.neq_sym, Z.lt_neq, pow2_pos; lia).
    reflexivity.
Qed.

Lemma int_truediv_pow2 (f : float_format) (a s : Z) :
  0 <= s ->
  int_truediv f a (2 ^ s) =
  match round_ratio f a (2 ^ s) with
  | Fin m e => Ok (Fin m e)
  | _ => Raise OverflowError
  end.
Proof.
  intros Hs. pose proof (pow2_pos s Hs). unfold int_truediv.
  destruct (Z.eqb_spec (2 ^ s) 0); [lia|].
  rewrite Z.sgn_pos, Z.mul_1_r, Z.abs_eq by lia. reflexivity.
Qed.

(** The conversion of a positive integer gives that integer rounded to 53
    significant bits, unless the rounded integer is out of range. *)
Lemma float_of_int_fin (M : Z) :
  0 < M -> round_sig 53 M < 2 ^ 1024 ->
  let t := Z.log2 M - 52 in
  exists m,
    float_of_int binary64 M = Ok (Fin m t) /\ 0 < m /\
    m * 2 ^ Z.max 0 t = round_sig 53 M * 2 ^ Z.max 0 (- t).
Proof.
  intros HM Hhi t.
  destruct (round_ratio_pow2 M 0 HM ltac:(lia) ltac:(cbn; lia) Hhi)
    as (m & Hr & Hm & Hv).
  exists m. unfold float_of_int.
  change (round_ratio binary64 M 1) with (round_ratio binary64 M (2 ^ 0)).
  rewrite Hr.
  replace (Z.log2 M - 52 - 0) with t by (unfold t; lia).
  now split.
Qed.

Lemma float_of_int_overflow (M : Z) :
  0 < M -> 2 ^ 1024 <= round_sig 53 M ->
  float_of_int binary64 M = Raise OverflowError.
Proof.
  intros HM Hhi. unfold float_of_int.
  change (round_ratio binary64 M 1) with (round_ratio binary64 M (2 ^ 0)).
  unfold round_ratio. destruct (Z.eqb_spec M 0); [lia|].
  rewrite Z.abs_eq, ilog2_ratio_pow2 by lia. cbn [prec emin emax binary64].
  pose proof (Z.log2_nonneg M).
  rewrite Z.max_l by lia.
  set (t := Z.log2 M - 0 - (53 - 1)).
  assert (Ht : 0 < t).
  { destruct (Z.le_gt_cases t 0) as [Hle|]; [|assumption].
    unfold round_sig in Hhi.
    replace (Z.log2 M - (53 - 1)) with t in Hhi by (unfold t; lia).
    destruct (Z.leb_spec t 0); [|lia].
    pose proof (log2_bounds M HM) as (_ & Hub).
    assert (2 ^ (Z.log2 M + 1) <= 2 ^ 1024)
      by (apply Z.pow_le_mono_r; unfold t in *; lia).
    lia. }
  destruct (Z.leb_spec 0 t); [|lia].
  change (2 ^ 0) with 1. rewrite Z.mul_1_l.
  unfold round_sig in Hhi.
  replace (Z.log2 M - (53 - 1)) with t in Hhi by (unfold t; lia).
  destruct (Z.leb_spec t 0); [lia|].
  set (m := rne_div M (2 ^ t)) in *.
  pose proof (pow2_pos t ltac:(lia)) as Hpt.
  pose proof (pow2_pos 1024 ltac:(lia)) as Hbig.
  assert (0 < m).
  { destruct (Z.le_gt_cases m 0); [|assumption].
    assert (m * 2 ^ t <= 0) by (apply Z.mul_nonpos_nonneg; lia). lia. }
  rewrite Z.abs_eq by lia.
  destruct (Z.leb_spec (2 ^ (1024 - t)) m) as [|Hlt]; [reflexivity|].
  exfalso. destruct (Z.le_gt_cases t 1024).
  - replace 1024 with ((1024 - t) + t) in Hhi at 1 by lia.
    rewrite pow2_split in Hhi by lia. nia.
  - rewrite Z.pow_neg_r in Hlt by lia. lia.
Qed.

Lemma floor_round_ratio (N s : Z) :
  0 < N -> 0 <= s -> 2 ^ (s - 1022) <= N ->
  round_sig 53 N < 2 ^ (1024 + s) ->
  math_floor (round_ratio binary64 N (2 ^ s)) = Ok (round_sig 53 N / 2 ^ s).
Proof.
  intros HN Hs Hlo Hhi.
  destruct (round_ratio_pow2 N s HN Hs Hlo Hhi) as (m & -> & _ & Hv).
  now apply math_floor_scaled.
Qed.

(** A product that is a fraction [d / 2^49 < 1] of a finite float stays
    finite after rounding. *)
Lemma scaled_product_finite (N s d F : Z) :
  0 < N -> 0 <= s -> 0 < d < 2 ^ 49 -> 0 < F < 2 ^ 1024 ->
  N * 2 ^ 49 = d * F * 2 ^ s ->
  round_sig 53 N < 2 ^ (1024 + s).
Proof.
  intros HN Hs Hd HF E.
  pose proof (round_sig_error 53 N ltac:(lia) HN) as He.
  pose proof (pow2_pos s Hs) as Hps.
  rewrite pow2_split by lia.
  set (B := 2 ^ 1024) in *. set (X := F * 2 ^ s).
  assert (HX : 0 < X) by (apply Z.mul_pos_pos; lia).
  assert (HXB : X < B * 2 ^ s) by (apply Z.mul_lt_mono_pos_r; lia).
  assert (HdX : d * X <= (2 ^ 49 - 1) * X)
    by (apply Z.mul_le_mono_nonneg_r; lia).
  replace (d * F * 2 ^ s) with (d * X) in E by (unfold X; ring).
  enough (round_sig 53 N < X) by lia.
  change (2 ^ 49) with 562949953421312 in *.
  change (2 ^ 53) with 9007199254740992 in *.
  lia.
Qed.

(** ** [_interp_49_bit] in closed form *)

Lemma round_ratio_zero (f : float_format) (D : Z) :
  round_ratio f 0 D = Fin 0 0.
Proof. reflexivity. Qed.

Lemma float_mul_zero_l (f : float_format) (m e : Z) :
  float_mul f (Fin 0 0) (Fin m e) = Fin 0 0.
Proof.
  unfold float_mul. rewrite !Z.mul_0_l.
  destruct (0 <=? 0 + e); apply round_ratio_zero.
Qed.

(** The float product of [d / 2^49] and a positive finite float of integer
    value [F], floored. *)
Lemma floor_mul_closed_form (d mq tq mF tF F : Z) :
  0 < d < 2 ^ 49 -> tq < 0 -> - 52 <= tq -> mq = d * 2 ^ (- tq) ->
  0 < mF -> - 52 <= tF -> 0 < F < 2 ^ 1024 ->
  mF * 2 ^ Z.max 0 tF = F * 2 ^ Z.max 0 (- tF) ->
  math_floor (float_mul binary64 (Fin mq (tq - 49)) (Fin mF tF))
  = Ok (round_sig 53 (d * F) / 2 ^ 49).
Proof.
  intros Hd Htq Htq' Hmq HmF HtF HF Hv.
  pose proof (pow2_pos (- tq) ltac:(lia)) as Hpq.
  assert (Hmq0 : 0 < mq) by (subst mq; apply Z.mul_pos_pos; lia).
  assert (HW : 0 < d * F) by (apply Z.mul_pos_pos; lia).
  unfold float_mul. set (e := tq - 49 + tF).
  destruct (Z.leb_spec 0 e) as [He|He].
  - (* the exponents add up to a non-negative one *)
    assert (HtF0 : 0 < tF) by lia.
    rewrite (Z.max_r 0 tF), (Z.max_l 0 (- tF)), Z.mul_1_r in Hv by lia.
    pose proof (pow2_pos e He) as Hpe.
    set (N := mq * mF * 2 ^ e).
    assert (HN : 0 < N) by (unfold N; repeat apply Z.mul_pos_pos; lia).
    assert (E : N * 2 ^ 49 = d * F * 2 ^ 0).
    { unfold N. subst mq. rewrite <- Hv. change (2 ^ 0) with 1.
      assert (P : 2 ^ (- tq) * 2 ^ e * 2 ^ 49 = 2 ^ tF).
      { rewrite <- !pow2_split by lia. f_equal. unfold e. lia. }
      rewrite <- P. ring. }
    change (round_ratio binary64 N 1) with (round_ratio binary64 N (2 ^ 0)).
    rewrite floor_round_ratio; try lia.
    + f_equal. apply round_sig_div_scale; try lia.
    + apply (scaled_product_finite N 0 d F); try lia.
  - set (N := mq * mF).
    assert (HN : 0 < N) by (unfold N; apply Z.mul_pos_pos; lia).
    assert (E : N * 2 ^ 49 = d * F * 2 ^ (- e)).
    { unfold N. subst mq.
      destruct (Z.le_gt_cases tF 0) as [Hle|Hgt].
      - rewrite (Z.max_l 0 tF), (Z.max_r 0 (- tF)), Z.mul_1_r in Hv by lia.
        subst mF.
        replace (- e) with (49 + (- tq) + (- tF)) by (unfold e; lia).
        rewrite !pow2_split by lia. ring.
      - rewrite (Z.max_r 0 tF), (Z.max_l 0 (- tF)), Z.mul_1_r in Hv by lia.
        rewrite <- Hv.
        assert (P : 2 ^ tF * 2 ^ (- e) = 2 ^ 49 * 2 ^ (- tq)).
        { rewrite <- !pow2_split by lia. f_equal. unfold e. lia. }
        transitivity (d * mF * (2 ^ 49 * 2 ^ (- tq))); [ring|].
        rewrite <- P. ring. }
    rewrite floor_round_ratio; try lia.
    + f_equal. apply round_sig_div_scale; try lia.
    + rewrite Z.pow_neg_r by (unfold e; lia). lia.
    + apply (scaled_product_finite N (- e) d F); try lia.
Qed.

(** On a digest [d] of at most 49 bits and a positive bound [M] whose
    conversion to a float is finite, the result is the 53-bit rounding of
    [d * F], where [F] is the 53-bit rounding of [M], divided by [2^49]. *)
Lemma interp_49_bit_closed_form (x : string) (d M : Z) :
  py_int_base2 x = Ok d -> 0 <= d < 2 ^ 49 -> 0 < M ->
  round_sig 53 M < 2 ^ 1024 ->
  _interp_49_bit x M = Ok (round_sig 53 (d * round_sig 53 M) / 2 ^ 49).
Proof.
  intros Hx Hd HM Hfin.
  unfold _interp_49_bit, interp_49_bit_on. rewrite Hx. cbn [bind].
  change (2 ^ (SR_BITS ^ 2)) with (2 ^ 49).
  rewrite int_truediv_pow2 by lia.
  destruct (float_of_int_fin M HM Hfin) as (mF & HyF & HmF & HvF).
  pose proof (round_sig_pos 53 M ltac:(lia) HM) as HFpos.
  destruct (Z.eq_dec d 0) as [->|Hne].
  - rewrite round_ratio_zero. cbn [bind]. rewrite HyF. cbn [bind].
    rewrite float_mul_zero_l, Z.mul_0_l.
    rewrite round_sig_small by lia. reflexivity.
  - assert (Hd0 : 0 < d) by lia.
    assert (Hl : Z.log2 d < 49) by (apply Z.log2_lt_pow2; lia).
    pose proof (Z.log2_nonneg d) as Hl0.
    assert (Hsmall : round_sig 53 d = d).
    { apply round_sig_small; [lia|]. split; [lia|].
      apply Z.lt_trans with (2 ^ 49); [lia|].
      apply Z.pow_lt_mono_r; lia. }
    destruct (round_ratio_pow2 d 49 Hd0 ltac:(lia))
      as (mq & Hq & Hmq & Hvq).
    + rewrite Z.pow_neg_r by lia. lia.
    + rewrite Hsmall. apply Z.lt_trans with (2 ^ 49); [lia|].
      apply Z.pow_lt_mono_r; lia.
    + rewrite Hq. cbn [bind]. rewrite HyF. cbn [bind].
      rewrite Hsmall, (Z.max_l 0), (Z.max_r 0 (- _)), Z.mul_1_r in Hvq by lia.
      pose proof (Z.log2_nonneg M).
      apply floor_mul_closed_form; solve [lia | exact HvF].
Qed.

(** A bound too large for a float makes the conversion, hence the call,
    raise [OverflowError]. *)
Lemma interp_49_bit_overflow (x : string) (d M : Z) :
  py_int_base2 x = Ok d -> 0 <= d < 2 ^ 49 -> 0 < M ->
  2 ^ 1024 <= round_sig 53 M ->
  _interp_49_bit x M = Raise OverflowError.
Proof.
  intros Hx Hd HM Hov.
  unfold _interp_49_bit, interp_49_bit_on. rewrite Hx. cbn [bind].
  change (2 ^ (SR_BITS ^ 2)) with (2 ^ 49).
  rewrite int_truediv_pow2 by lia.
  rewrite (float_of_int_overflow M HM Hov).
  destruct (Z.eq_dec d 0) as [->|Hne]; [reflexivity|].
  assert (Hd0 : 0 < d) by lia.
  assert (Hl : Z.log2 d < 49) by (apply Z.log2_lt_pow2; lia).
  destruct (round_ratio_pow2 d 49 Hd0 ltac:(lia)) as (mq & -> & _).
  - rewrite Z.pow_neg_r by lia. lia.
  - rewrite round_sig_small.
    + apply Z.lt_trans with (2 ^ 49); [lia|]. apply Z.pow_lt_mono_r; lia.
    + lia.
    + split; [lia|]. apply Z.lt_trans with (2 ^ 49); [lia|].
      apply Z.pow_lt_mono_r; lia.
  - reflexivity.
Qed.

(** ** The integers that convert to a finite float *)

Lemma float_of_int_range (M : Z) :
  0 < M -> (round_sig 53 M < 2 ^ 1024 <-> M < 2 ^ 1024 - 2 ^ 970).
Proof.
  intros HM.
  assert (P971 : 2 ^ 971 = 2 * 2 ^ 970)
    by (change (2 ^ 971) with (2 ^ (1 + 970)); apply pow2_split; lia).
  assert (P1023 : 2 ^ 1023 = 2 ^ 53 * 2 ^ 970)
    by (change (2 ^ 1023) with (2 ^ (53 + 970)); apply pow2_split; lia).
  assert (P1024 : 2 ^ 1024 = 2 ^ 54 * 2 ^ 970)
    by (change (2 ^ 1024) with (2 ^ (54 + 970)); apply pow2_split; lia).
  pose proof (pow2_pos 970 ltac:(lia)) as HA.
  destruct (Z.lt_ge_cases M (2 ^ 1023)) as [Hs|Hb].
  - pose proof (round_sig_error 53 M ltac:(lia) HM) as He.
    rewrite P1024. rewrite P1023 in Hs.
    set (A := 2 ^ 970) in *.
    change (2 ^ 53) with 9007199254740992 in *.
    change (2 ^ 54) with 18014398509481984 in *.
    split; intros _; lia.
  - destruct (Z.lt_ge_cases M (2 ^ 1024)) as [Hlt|Hge].
    + assert (Hl : Z.log2 M = 1023)
        by (apply Z.log2_unique; [lia|]; split; [exact Hb|exact Hlt]).
      unfold round_sig. rewrite Hl.
      change (1023 - (53 - 1) <=? 0) with false. cbv iota.
      change (1023 - (53 - 1)) with 971.
      rewrite P1024, P971. rewrite P1024 in Hlt. rewrite P1023 in Hb.
      set (A := 2 ^ 970) in *.
      assert (HD : 0 < 2 * A) by lia.
      pose proof (Z.div_mod M (2 * A) ltac:(lia)) as Hdm.
      pose proof (Z.mod_pos_bound M (2 * A) HD) as Hr.
      assert (Hq : 2 ^ 52 <= M / (2 * A) < 2 ^ 53).
      { split.
        - apply Z.div_le_lower_bound; [lia|].
          change (2 ^ 52) with 4503599627370496.
          change (2 ^ 53) with 9007199254740992 in Hb. lia.
        - apply Z.div_lt_upper_bound; [lia|].
          change (2 ^ 53) with 9007199254740992.
          change (2 ^ 54) with 18014398509481984 in Hlt. lia. }
      unfold rne_div.
      set (q := M / (2 * A)) in *. set (r := M mod (2 * A)) in *.
      change (2 ^ 52) with 4503599627370496 in *.
      change (2 ^ 53) with 9007199254740992 in *.
      change (2 ^ 54) with 18014398509481984 in *.
      destruct (Z.eq_dec q 9007199254740991) as [Eq|Nq].
      * rewrite Eq in *.
        destruct (Z.ltb_spec (2 * r) (2 * A)); [lia|].
        destruct (Z.ltb_spec (2 * A) (2 * r)); [lia|].
        change (Z.even 9007199254740991) with false. cbv iota. lia.
      * assert (q * A <= 9007199254740990 * A)
          by (apply Z.mul_le_mono_nonneg_r; lia).
        destruct (Z.ltb_spec (2 * r) (2 * A)); [lia|].
        destruct (Z.ltb_spec (2 * A) (2 * r)); [lia|].
        destruct (Z.even q); lia.
    + split; [|lia]. intros Hfin. exfalso. revert Hfin. apply Z.le_ngt.
      pose proof (log2_bounds M HM) as (Hlo & _).
      assert (1024 <= Z.log2 M).
      { rewrite <- (Z.log2_pow2 1024) by lia. apply Z.log2_le_mono. lia. }
      set (t := Z.log2 M - (53 - 1)).
      assert (Ht : 0 < t) by (unfold t; lia).
      assert (HtM : 2 ^ t <= M).
      { apply Z.le_trans with (2 ^ Z.log2 M); [|exact Hlo].
        apply Z.pow_le_mono_r; unfold t; lia. }
      destruct (Z.le_gt_cases t 1024) as [Hle|Hgt].
      * pose proof (round_sig_between 53 M t (2 ^ (1024 - t)) M HM
                      ltac:(lia) ltac:(unfold t; lia)) as Hbt.
        rewrite <- pow2_split in Hbt by lia.
        replace (1024 - t + t) with 1024 in Hbt by lia.
        pose proof (pow2_pos t ltac:(lia)).
        apply Hbt. split; [exact Hge|]. nia.
      * pose proof (round_sig_between 53 M t 1 M HM
                      ltac:(lia) ltac:(unfold t; lia)) as Hbt.
        pose proof (pow2_pos t ltac:(lia)).
        assert (2 ^ 1024 <= 2 ^ t) by (apply Z.pow_le_mono_r; lia).
        assert (1 * 2 ^ t <= round_sig 53 M) by (apply Hbt; split; nia).
        lia.
Qed.

(** ** The interpolator: the claims *)

Lemma round_sig_nonneg (n : Z) : 0 <= n -> 0 <= round_sig 53 n.
Proof.
  intros H. destruct (Z.eq_dec n 0) as [->|]; [now cbn|].
  pose proof (round_sig_pos 53 n ltac:(lia) ltac:(lia)). lia.
Qed.

Lemma round_sig_exact_bound (M : Z) :
  0 < M <= 2 ^ 53 -> round_sig 53 M = M.
Proof.
  intros H. destruct (Z.eq_dec M (2 ^ 53)) as [->|]; [reflexivity|].
  apply round_sig_small; lia.
Qed.

(** The rounded product stays below [M * 2^49]. *)
Lemma rounded_product_below (d M : Z) :
  0 <= d < 2 ^ 49 -> 0 < M ->
  round_sig 53 (d * round_sig 53 M) < 2 ^ 49 * M.
Proof.
  intros Hd HM.
  pose proof (round_sig_pos 53 M ltac:(lia) HM) as HF.
  pose proof (round_sig_error 53 M ltac:(lia) HM) as HeF.
  set (F := round_sig 53 M) in *.
  destruct (Z.eq_dec d 0) as [->|Hne].
  - rewrite Z.mul_0_l. cbn -[Z.pow Z.mul]. lia.
  - assert (HW : 0 < d * F) by (apply Z.mul_pos_pos; lia).
    pose proof (round_sig_error 53 (d * F) ltac:(lia) HW) as HeW.
    assert (d * F <= (2 ^ 49 - 1) * F)
      by (apply Z.mul_le_mono_nonneg_r; lia).
    set (W := d * F) in *. set (R := round_sig 53 W) in *.
    change (2 ^ 49) with 562949953421312 in *.
    change (2 ^ 53) with 9007199254740992 in *.
    lia.
Qed.

(** With an exactly converted bound the rounded product stays between the
    two multiples of [2^49] that enclose the exact product. *)
Lemma rounded_product_enclosed (d M : Z) :
  0 < d < 2 ^ 49 -> 0 < M <= 2 ^ 53 ->
  let n := d * M / 2 ^ 49 in
  n * 2 ^ 49 <= round_sig 53 (d * M) <= (n + 1) * 2 ^ 49.
Proof.
  intros Hd HM n.
  assert (HW : 0 < d * M) by (apply Z.mul_pos_pos; lia).
  assert (HW2 : d * M < 2 ^ 102).
  { change (2 ^ 102) with (2 ^ 49 * 2 ^ 53).
    apply Z.le_lt_trans with (d * 2 ^ 53).
    - apply Z.mul_le_mono_nonneg_l; lia.
    - apply Z.mul_lt_mono_pos_r; lia. }
  assert (Hl : Z.log2 (d * M) < 102) by (apply Z.log2_lt_pow2; lia).
  pose proof (Z.div_mod (d * M) (2 ^ 49) ltac:(lia)) as Hdm.
  pose proof (Z.mod_pos_bound (d * M) (2 ^ 49) ltac:(lia)) as Hr.
  apply round_sig_between; lia.
Qed.

(** C4, as the code has it.  For a digest [d] in [[0, 2^49)] and a bound
    [M] with [0 < M < 2^1024 - 2^970], the integers that convert to a finite
    float, [_interp_49_bit] returns the floor of the correctly rounded float
    product of the quotient [d / 2^49] and the float of [M]; in integers,
    with [F] the integer [M] rounded to 53 significant bits (to nearest,
    ties to even), the rank is [floor(R / 2^49)] where [R] is [d * F]
    rounded to 53 significant bits.
    That rank lies in [[0, M)]; digest [0] gives rank [0]; for [M <= 2^53]
    it is [floor(d * M / 2^49)] or that plus one, and it is
    [floor(d * M / 2^49)] exactly whenever [d * M < 2^53]; for [M <= 2^49]
    digest [2^49 - 1] gives rank [M - 1].  From [2^1024 - 2^970] on the
    call raises [OverflowError]. *)
Theorem interp_49_bit_rank (x : string) (d M : Z) :
  py_int_base2 x = Ok d -> 0 <= d < 2 ^ (SR_BITS ^ 2) -> 0 < M ->
  (M < 2 ^ 1024 - 2 ^ 970 ->
   exists r,
     _interp_49_bit x M = Ok r /\
     (exists q y,
        int_truediv binary64 d (2 ^ (SR_BITS ^ 2)) = Ok q /\
        float_of_int binary64 M = Ok y /\
        math_floor (float_mul binary64 q y) = Ok r) /\
     r = round_sig 53 (d * round_sig 53 M) / 2 ^ (SR_BITS ^ 2) /\
     0 <= r < M /\
     (d = 0 -> r = 0) /\
     (M <= 2 ^ 53 ->
      (r = d * M / 2 ^ (SR_BITS ^ 2) \/ r = d * M / 2 ^ (SR_BITS ^ 2) + 1) /\
      (d * M < 2 ^ 53 -> r = d * M / 2 ^ (SR_BITS ^ 2))) /\
     (d = 2 ^ (SR_BITS ^ 2) - 1 -> M <= 2 ^ (SR_BITS ^ 2) -> r = M - 1)) /\
  (2 ^ 1024 - 2 ^ 970 <= M -> _interp_49_bit x M = Raise OverflowError).
Proof.
  change (2 ^ (SR_BITS ^ 2)) with (2 ^ 49). intros Hx Hd HM. split.
  - intros HT. apply float_of_int_range in HT; [|exact HM].
    pose proof (interp_49_bit_closed_form x d M Hx Hd HM HT) as Hcf.
    assert (Hops : exists q y,
      int_truediv binary64 d (2 ^ 49) = Ok q /\
      float_of_int binary64 M = Ok y /\
      math_floor (float_mul binary64 q y)
      = Ok (round_sig 53 (d * round_sig 53 M) / 2 ^ 49)).
    { unfold _interp_49_bit, interp_49_bit_on in Hcf.
      rewrite Hx in Hcf. cbn [bind] in Hcf.
      change (2 ^ (SR_BITS ^ 2)) with (2 ^ 49) in Hcf.
      destruct (int_truediv binary64 d (2 ^ 49)) as [q|]; [|discriminate].
      cbn [bind] in Hcf.
      destruct (float_of_int binary64 M) as [y|]; [|discriminate].
      exists q, y. split; [reflexivity|]. split; [reflexivity|exact Hcf]. }
    rewrite Hcf.
    eexists. split; [reflexivity|]. split; [exact Hops|].
    split; [reflexivity|].
    pose proof (rounded_product_below d M Hd HM) as Hlt.
    pose proof (round_sig_pos 53 M ltac:(lia) HM) as HF.
    assert (Hnn : 0 <= round_sig 53 (d * round_sig 53 M))
      by (apply round_sig_nonneg, Z.mul_nonneg_nonneg; lia).
    assert (Hexact : M <= 2 ^ 53 ->
      (round_sig 53 (d * round_sig 53 M) / 2 ^ 49 = d * M / 2 ^ 49 \/
       round_sig 53 (d * round_sig 53 M) / 2 ^ 49 = d * M / 2 ^ 49 + 1) /\
      (d * M < 2 ^ 53 ->
       round_sig 53 (d * round_sig 53 M) / 2 ^ 49 = d * M / 2 ^ 49)).
    { intros HM53. rewrite (round_sig_exact_bound M) by lia.
      destruct (Z.eq_dec d 0) as [->|Hne].
      - rewrite Z.mul_0_l. split; [left|intros _]; reflexivity.
      - pose proof (rounded_product_enclosed d M ltac:(lia) ltac:(lia))
          as Henc. cbv zeta in Henc.
        set (n := d * M / 2 ^ 49) in *.
        set (R := round_sig 53 (d * M)) in *.
        assert (n <= R / 2 ^ 49) by (apply Z.div_le_lower_bound; lia).
        assert (R / 2 ^ 49 <= n + 1) by (apply Z.div_le_upper_bound; lia).
        split; [lia|]. intros Hs. unfold R.
        rewrite round_sig_small; [reflexivity|lia|].
        split; [apply Z.mul_nonneg_nonneg; lia|exact Hs]. }
    split; [|split; [|split]].
    + split; [apply Z.div_pos; lia|].
      apply Z.div_lt_upper_bound; lia.
    + intros ->. rewrite Z.mul_0_l. reflexivity.
    + exact Hexact.
    + intros -> HM49.
      assert (HM53 : M <= 2 ^ 53).
      { apply Z.le_trans with (2 ^ 49); [exact HM49|].
        apply Z.pow_le_mono_r; lia. }
      destruct (Hexact HM53) as (Hor & _).
      assert (Hn : (2 ^ 49 - 1) * M / 2 ^ 49 = M - 1).
      { symmetry. apply (Z.div_unique_pos _ _ _ (2 ^ 49 - M)); lia. }
      rewrite Hn in Hor.
      assert (round_sig 53 ((2 ^ 49 - 1) * round_sig 53 M) / 2 ^ 49 < M)
        by (apply Z.div_lt_upper_bound; lia).
      lia.
  - intros HT. apply (interp_49_bit_overflow x d M Hx Hd HM).
    apply Z.le_ngt. intros Hfin.
    apply float_of_int_range in Hfin; [lia|exact HM].
Qed.

Lemma interp_49_bit_rank_witness :
  exists r,
    _interp_49_bit "0b1101000001111110100000101011111010010010101110001"
      2635531375 = Ok r /\
    r = round_sig 53 (458483555968369 * round_sig 53 2635531375)
        / 2 ^ (SR_BITS ^ 2) /\
    0 <= r < 2635531375.
Proof.
  destruct (interp_49_bit_rank
              "0b1101000001111110100000101011111010010010101110001"
              458483555968369 2635531375 eq_refl
              ltac:(split; [lia|reflexivity]) ltac:(lia))
    as (H & _).
  destruct (H ltac:(reflexivity)) as (r & Hr & _ & Hc & Hb & _).
  exists r. split; [exact Hr|]. split; [exact Hc|exact Hb].
Defined.

(** C4 as stated fails: with [M = C(503, 4)], the bound the program uses,
    the digest [458483555968369] has [floor(d * M / 2^49) = 2146456872],
    but the float product rounds up to the integer [2146456873], which is
    what [_interp_49_bit] returns.  And a bound that no float holds gives
    no rank at all. *)
Lemma interp_49_bit_not_exact_floor :
  py_int_base2 "0b1101000001111110100000101011111010010010101110001"
    = Ok 458483555968369 /\
  0 <= 458483555968369 < 2 ^ (SR_BITS ^ 2) /\
  math_comb (len SP_500) N_PICKS = Ok 2635531375 /\
  458483555968369 * 2635531375 / 2 ^ (SR_BITS ^ 2) = 2146456872 /\
  _interp_49_bit "0b1101000001111110100000101011111010010010101110001"
    2635531375 = Ok 2146456873 /\
  _interp_49_bit "0b1101000001111110100000101011111010010010101110001"
    2635531375 <> Ok (458483555968369 * 2635531375 / 2 ^ (SR_BITS ^ 2)) /\
  _interp_49_bit "0b0" (2 ^ 1024 - 2 ^ 970) = Raise OverflowError.
Proof.
  split; [reflexivity|]. split; [split; [lia|reflexivity]|].
  split; [reflexivity|]. split; [reflexivity|].
  split; [vm_compute; reflexivity|].
  split; [vm_compute; discriminate|].
  vm_compute. reflexivity.
Qed.

(** C6, as the code has it.  For a bound [M] with
    [0 < M < 2^1024 - 2^970] and digests [d1 < d2] in [[0, 2^49)], both
    calls return and the rank of [d1] is at most the rank of [d2]; from
    [2^1024 - 2^970] on both calls raise [OverflowError]. *)
Theorem interp_49_bit_monotone (x1 x2 : string) (d1 d2 M : Z) :
  py_int_base2 x1 = Ok d1 -> py_int_base2 x2 = Ok d2 ->
  0 <= d1 -> d1 < d2 -> d2 < 2 ^ (SR_BITS ^ 2) -> 0 < M ->
  (M < 2 ^ 1024 - 2 ^ 970 ->
   exists r1 r2,
     _interp_49_bit x1 M = Ok r1 /\ _interp_49_bit x2 M = Ok r2 /\
     r1 <= r2) /\
  (2 ^ 1024 - 2 ^ 970 <= M ->
   _interp_49_bit x1 M = Raise OverflowError /\
   _interp_49_bit x2 M = Raise OverflowError).
Proof.
  change (2 ^ (SR_BITS ^ 2)) with (2 ^ 49).
  intros Hx1 Hx2 H1 H12 H2 HM. split.
  - intros HT. apply float_of_int_range in HT; [|exact HM].
    rewrite (interp_49_bit_closed_form x1 d1 M Hx1 ltac:(lia) HM HT).
    rewrite (interp_49_bit_closed_form x2 d2 M Hx2 ltac:(lia) HM HT).
    do 2 eexists. split; [reflexivity|]. split; [reflexivity|].
    apply Z.div_le_mono; [lia|].
    pose proof (round_sig_pos 53 M ltac:(lia) HM) as HF.
    set (F := round_sig 53 M) in *.
    assert (HW2 : 0 < d2 * F) by (apply Z.mul_pos_pos; lia).
    destruct (Z.eq_dec d1 0) as [->|Hne].
    + rewrite Z.mul_0_l. apply round_sig_nonneg. lia.
    + assert (HW1 : 0 < d1 * F) by (apply Z.mul_pos_pos; lia).
      pose proof (round_sig_error 53 (d1 * F) ltac:(lia) HW1) as He1.
      pose proof (round_sig_error 53 (d2 * F) ltac:(lia) HW2) as He2.
      assert (d1 * F <= (d2 - 1) * F)
        by (apply Z.mul_le_mono_nonneg_r; lia).
      assert (d2 * F <= (2 ^ 49 - 1) * F)
        by (apply Z.mul_le_mono_nonneg_r; lia).
      replace ((d2 - 1) * F) with (d2 * F - F) in * by ring.
      set (W1 := d1 * F) in *. set (W2 := d2 * F) in *.
      change (2 ^ 49) with 562949953421312 in *.
      change (2 ^ 53) with 9007199254740992 in *.
      lia.
  - intros HT.
    assert (Hov : 2 ^ 1024 <= round_sig 53 M).
    { apply Z.le_ngt. intros Hfin.
      apply float_of_int_range in Hfin; [lia|exact HM]. }
    split; [apply (interp_49_bit_overflow x1 d1)
           |apply (interp_49_bit_overflow x2 d2)]; try assumption; lia.
Qed.

Lemma interp_49_bit_monotone_witness :
  exists r1 r2,
    _interp_49_bit "0b101" 2635531375 = Ok r1 /\
    _interp_49_bit "0b1101000001111110100000101011111010010010101110001"
      2635531375 = Ok r2 /\
    r1 <= r2.
Proof.
  destruct (interp_49_bit_monotone
              "0b101" "0b1101000001111110100000101011111010010010101110001"
              5 458483555968369 2635531375 eq_refl eq_refl
              ltac:(lia) ltac:(lia) ltac:(reflexivity) ltac:(lia))
    as (H & _).
  exact (H ltac:(reflexivity)).
Defined.

(** C6 as stated fails for a bound beyond the range of a float: neither
    call returns a rank. *)
Lemma interp_49_bit_huge_bound_raises :
  _interp_49_bit "0b0" (2 ^ 1024) = Raise OverflowError /\
  _interp_49_bit "0b1" (2 ^ 1024) = Raise OverflowError /\
  ~ (exists r1 r2,
       _interp_49_bit "0b0" (2 ^ 1024) = Ok r1 /\
       _interp_49_bit "0b1" (2 ^ 1024) = Ok r2 /\ r1 <= r2).
Proof.
  assert (H0 : _interp_49_bit "0b0" (2 ^ 1024) = Raise OverflowError)
    by (vm_compute; reflexivity).
  assert (H1 : _interp_49_bit "0b1" (2 ^ 1024) = Raise OverflowError)
    by (vm_compute; reflexivity).
  split; [exact H0|]. split; [exact H1|].
  intros (r1 & r2 & E & _). rewrite H0 in E. discriminate E.
Qed.

(** ** The start-up assertion: the claim *)

(** The all-ones fraction [(2^s - 1) / 2^s] scaled by [2^p] rounds to
    [2^p], that is to [1], exactly when fewer than [s] bits are kept. *)
Lemma rne_div_all_ones (s p : Z) :
  1 <= s -> 1 <= p ->
  rne_div ((2 ^ s - 1) * 2 ^ p) (2 ^ s) =
  if p <? s then 2 ^ p else (2 ^ s - 1) * 2 ^ (p - s).
Proof.
  intros Hs Hp. pose proof (pow2_pos s ltac:(lia)) as HD.
  pose proof (pow2_pos p ltac:(lia)) as HP.
  destruct (Z.ltb_spec p s) as [Hlt|Hge].
  - assert (H2 : 2 * 2 ^ p <= 2 ^ s).
    { change 2 with (2 ^ 1) at 1. rewrite <- pow2_split by lia.
      apply Z.pow_le_mono_r; lia. }
    assert (Hq : (2 ^ s - 1) * 2 ^ p / 2 ^ s = 2 ^ p - 1).
    { symmetry. apply (Z.div_unique_pos _ _ _ (2 ^ s - 2 ^ p)); lia. }
    assert (Hr : ((2 ^ s - 1) * 2 ^ p) mod 2 ^ s = 2 ^ s - 2 ^ p).
    { symmetry. apply (Z.mod_unique_pos _ _ (2 ^ p - 1)); lia. }
    unfold rne_div. rewrite Hq, Hr.
    destruct (Z.ltb_spec (2 * (2 ^ s - 2 ^ p)) (2 ^ s)); [lia|].
    destruct (Z.ltb_spec (2 ^ s) (2 * (2 ^ s - 2 ^ p))); [lia|].
    rewrite Z.even_sub, Z.even_pow by lia. cbn. lia.
  - replace (2 ^ p) with (2 ^ (p - s) * 2 ^ s)
      by (rewrite <- pow2_split by lia; f_equal; lia).
    rewrite Z.mul_assoc. apply rne_div_exact. exact HD.
Qed.

(** On a format with [prec] significant bits whose exponent range holds
    the values just below [1], the quotient [(2^s - 1) / 2^s] compares
    equal to [1] exactly when [prec < s]. *)
Lemma all_ones_quotient (f : float_format) (s : Z) :
  1 <= s -> 1 <= prec f -> emin f <= - prec f -> 1 <= emax f ->
  exists q,
    int_truediv f (2 ^ s - 1) (2 ^ s) = Ok q /\
    float_eq_int q 1 = (prec f <? s).
Proof.
  intros Hs Hp Hmin Hmax. set (p := prec f) in *.
  pose proof (pow2_pos s ltac:(lia)) as HD.
  pose proof (pow2_pos p ltac:(lia)) as HP.
  assert (Hhalf : 2 ^ s = 2 * 2 ^ (s - 1)).
  { change 2 with (2 ^ 1) at 2. rewrite <- pow2_split by lia.
    f_equal. lia. }
  pose proof (pow2_pos (s - 1) ltac:(lia)) as HD'.
  assert (Hl : Z.log2 (2 ^ s - 1) = s - 1).
  { apply Z.log2_unique; [lia|].
    replace (Z.succ (s - 1)) with s by lia. lia. }
  rewrite int_truediv_pow2 by lia. unfold round_ratio.
  destruct (Z.eqb_spec (2 ^ s - 1) 0); [lia|].
  rewrite Z.abs_eq, ilog2_ratio_pow2, Hl by lia. fold p.
  rewrite Z.max_l by lia.
  replace (s - 1 - s - (p - 1)) with (- p) by lia.
  destruct (Z.leb_spec 0 (- p)); [lia|].
  rewrite Z.opp_involutive, rne_div_all_ones by lia.
  assert (Hbig : 2 ^ p < 2 ^ (emax f - - p))
    by (apply Z.pow_lt_mono_r; lia).
  destruct (Z.ltb_spec p s) as [Hlt|Hge].
  - rewrite Z.abs_eq by lia.
    destruct (Z.leb_spec (2 ^ (emax f - - p)) (2 ^ p)); [lia|].
    eexists. split; [reflexivity|].
    cbn [float_eq_int]. destruct (Z.leb_spec 0 (- p)); [lia|].
    rewrite Z.opp_involutive. apply Z.eqb_eq. lia.
  - pose proof (pow2_pos (p - s) ltac:(lia)) as HPs.
    assert (E : 2 ^ p = 2 ^ s * 2 ^ (p - s))
      by (rewrite <- pow2_split by lia; f_equal; lia).
    assert (Hm : 0 < (2 ^ s - 1) * 2 ^ (p - s) < 2 ^ p) by nia.
    rewrite Z.abs_eq by lia.
    destruct (Z.leb_spec (2 ^ (emax f - - p)) ((2 ^ s - 1) * 2 ^ (p - s)));
      [lia|].
    eexists. split; [reflexivity|].
    cbn [float_eq_int]. destruct (Z.leb_spec 0 (- p)); [lia|].
    rewrite Z.opp_involutive. apply Z.eqb_neq. lia.
Qed.

(** C2.  The assertion of divine.py compares [(2^SR_BITS - 1) / 2^SR_BITS],
    that is [(2^7 - 1) / 2^7], with [1], not [(2^49 - 1) / 2^49]: on every
    float format it raises exactly when the precision is below [SR_BITS = 7]
    bits, whereas [(2^49 - 1) / 2^49] is told from [1] exactly when the
    precision is at least [SR_BITS ^ 2 = 49] bits.  A platform with between
    7 and 48 significant bits therefore passes the assertion without having
    the precision the comment above it asks for. *)
Theorem precision_assert_checks_7_bits (f : float_format) :
  1 <= prec f -> emin f <= - prec f -> 1 <= emax f ->
  precision_assert f
  = (if prec f <? SR_BITS then Raise AssertionError else Ok tt) /\
  distinguishes_49_bits f = (SR_BITS ^ 2 <=? prec f) /\
  (SR_BITS <= prec f < SR_BITS ^ 2 ->
   precision_assert f = Ok tt /\ distinguishes_49_bits f = false).
Proof.
  intros Hp Hmin Hmax.
  destruct (all_ones_quotient f SR_BITS ltac:(unfold SR_BITS; lia)
              Hp Hmin Hmax) as (q7 & Hq7 & He7).
  destruct (all_ones_quotient f (SR_BITS ^ 2) ltac:(unfold SR_BITS; lia)
              Hp Hmin Hmax) as (q49 & Hq49 & He49).
  assert (Ha : precision_assert f
               = (if prec f <? SR_BITS then Raise AssertionError else Ok tt)).
  { unfold precision_assert. rewrite Hq7. cbn [bind]. now rewrite He7. }
  assert (Hd : distinguishes_49_bits f = (SR_BITS ^ 2 <=? prec f)).
  { unfold distinguishes_49_bits. rewrite Hq49, He49.
    destruct (Z.ltb_spec (prec f) (SR_BITS ^ 2)),
             (Z.leb_spec (SR_BITS ^ 2) (prec f)); try reflexivity; lia. }
  split; [exact Ha|]. split; [exact Hd|].
  intros (Hlo & Hhi). rewrite Ha, Hd.
  destruct (Z.ltb_spec (prec f) SR_BITS); [lia|].
  destruct (Z.leb_spec (SR_BITS ^ 2) (prec f)); [lia|]. split; reflexivity.
Qed.

Lemma precision_assert_checks_7_bits_witness :
  precision_assert binary32 = Ok tt /\
  distinguishes_49_bits binary32 = false.
Proof.
  apply (precision_assert_checks_7_bits binary32);
    cbn; try lia. unfold SR_BITS. lia.
Defined.

Example precision_assert_binary64 :
  precision_assert binary64 = Ok tt /\
  distinguishes_49_bits binary64 = true.
Proof. split; vm_compute; reflexivity. Qed.

(** * Further properties of the code *)

(** ** The scan of [_get_ith_comb] *)

(** X2.  The generator expression of lines 94-95 returns the largest [x]
    below [n_p] whose [math.comb(x, k_p)] does not exceed [above], together
    with that value; it raises [StopIteration] exactly when no [x] below
    [n_p] qualifies. *)
Theorem scan_finds_largest (n_p : nat) (k_p above : Z) :
  0 <= k_p ->
  match scan n_p k_p above with
  | Ok (x, below) =>
      0 <= x < Z.of_nat n_p /\ math_comb x k_p = Ok below /\
      below <= above /\
      forall y, x < y < Z.of_nat n_p ->
        exists b, math_comb y k_p = Ok b /\ above < b
  | Raise e =>
      e = StopIteration /\
      forall y, 0 <= y < Z.of_nat n_p ->
        exists b, math_comb y k_p = Ok b /\ above < b
  end.
Proof.
  intros Hk. as_nat k_p k. induction n_p as [|m IH].
  - cbn [scan]. split; [reflexivity|]. intros y Hy. lia.
  - rewrite scan_S. destruct (Z.leb_spec (pascal m k) above) as [Hle|Hgt].
    + split; [lia|]. split; [apply math_comb_nat|]. split; [exact Hle|].
      intros y Hy. lia.
    + destruct (scan m (Z.of_nat k) above) as [[x below]|e].
      * destruct IH as (Hx & Hc & Hb & Hall).
        split; [lia|]. split; [exact Hc|]. split; [exact Hb|].
        intros y Hy. destruct (Z.eq_dec y (Z.of_nat m)) as [->|Hne].
        -- exists (pascal m k). split; [apply math_comb_nat|exact Hgt].
        -- apply Hall. lia.
      * destruct IH as (He & Hall). split; [exact He|].
        intros y Hy. destruct (Z.eq_dec y (Z.of_nat m)) as [->|Hne].
        -- exists (pascal m k). split; [apply math_comb_nat|exact Hgt].
        -- apply Hall. lia.
Qed.

Lemma scan_finds_largest_witness :
  scan 5 2 4 = Ok (3, 3) /\
  forall y, 3 < y < 5 -> exists b, math_comb y 2 = Ok b /\ 4 < b.
Proof.
  pose proof (scan_finds_largest 5 2 4 ltac:(lia)) as H.
  change (scan 5 2 4) with (@Ok (Z * Z) (3, 3)) in H.
  destruct H as (_ & _ & _ & H). split; [reflexivity|exact H].
Defined.

(** ** The rank read back from a combination *)

Lemma combinations_entry_length {A : Type} (l : list A) : forall k c,
  In c (combinations l k) -> length c = k.
Proof.
  induction l as [|x t IH]; intros [|k] c H; cbn in H.
  - destruct H as [<-|[]]. reflexivity.
  - contradiction.
  - destruct H as [<-|[]]. reflexivity.
  - apply in_app_iff in H. destruct H as [H|H].
    + apply in_map_iff in H. destruct H as (c' & <- & H).
      cbn. f_equal. now apply IH.
    + now apply IH.
Qed.

Lemma combinadic_entry (m : nat) : forall (a k idx : nat) (c : list Z),
  nth_error (combinations (run a m) k) idx = Some c ->
  combinadic (Z.of_nat (a + m)) c = pascal m k - 1 - Z.of_nat idx.
Proof.
  induction m as [|m IH]; intros a [|k] idx c H.
  - destruct idx as [|[|?]]; cbn in H; try discriminate.
    injection H as <-. reflexivity.
  - destruct idx; discriminate.
  - rewrite pascal_0_r.
    destruct idx as [|[|?]]; cbn in H; try discriminate.
    injection H as <-. reflexivity.
  - rewrite run_S, combinations_nth_cons, length_run in H.
    rewrite pascal_S.
    destruct (Z.ltb_spec (Z.of_nat idx) (pascal m k)) as [Hlt|Hge].
    + destruct (nth_error (combinations (run (S a) m) k) idx) as [c'|] eqn:E;
        [|discriminate].
      injection H as <-.
      assert (Hlen : length c' = k)
        by (eapply combinations_entry_length, nth_error_In; exact E).
      cbn [combinadic length]. rewrite Hlen.
      replace (Z.of_nat (a + S m) - 1 - Z.of_nat a) with (Z.of_nat m) by lia.
      rewrite comb_prod_pascal.
      replace (a + S m)%nat with (S a + m)%nat by lia.
      rewrite (IH (S a) k idx c' E). lia.
    + pose proof (combinations_length (run (S a) m) k) as Hl.
      rewrite length_run in Hl.
      replace (a + S m)%nat with (S a + m)%nat by lia.
      rewrite (IH (S a) (S k) _ c H). lia.
Qed.

(** X1.  The returned combination carries its rank: for [0 <= k <= n] and
    [idx] in [[0, C(n, k))], the values [math.comb(n - 1 - x, k_p)] that the
    loop subtracts from [above] add up to the whole complementary rank
    [C(n, k) - 1 - idx] (so [above] ends at zero); conversely every
    ascending [k]-tuple [c] over [{0, ..., n-1}] is returned for the rank
    [C(n, k) - 1 - combinadic n c], which is in range. *)
Theorem get_ith_comb_rank_round_trip (n k : Z) :
  0 <= k <= n ->
  (forall idx, 0 <= idx < comb_prod n (Z.to_nat k) ->
     exists c, _get_ith_comb n k idx = Ok c /\
               combinadic n c = comb_prod n (Z.to_nat k) - 1 - idx) /\
  (forall c, is_comb n k c ->
     0 <= comb_prod n (Z.to_nat k) - 1 - combinadic n c
       < comb_prod n (Z.to_nat k) /\
     _get_ith_comb n k (comb_prod n (Z.to_nat k) - 1 - combinadic n c)
     = Ok c).
Proof.
  intros Hk.
  assert (Hfwd : forall idx, 0 <= idx < comb_prod n (Z.to_nat k) ->
     exists c, _get_ith_comb n k idx = Ok c /\
               In c (combinations (py_range n) (Z.to_nat k)) /\
               combinadic n c = comb_prod n (Z.to_nat k) - 1 - idx).
  { intros idx Hi.
    destruct (get_ith_comb_entry n k idx Hk Hi) as (c & Hg & Hn & _).
    exists c. split; [exact Hg|]. split; [eapply nth_error_In; exact Hn|].
    revert Hn Hi. as_nat n n0. as_nat k k0. intros Hn Hi.
    rewrite py_range_run in Hn. rewrite comb_prod_pascal in *.
    pose proof (combinadic_entry n0 0 k0 _ c Hn) as E.
    change (0 + n0)%nat with n0 in E. lia. }
  split.
  - intros idx Hi. destruct (Hfwd idx Hi) as (c & Hg & _ & Hc).
    exists c. split; assumption.
  - intros c Hc.
    assert (Hin : In c (combinations (py_range n) (Z.to_nat k))).
    { revert Hc. as_nat n n0. as_nat k k0. apply is_comb_in_combinations. }
    apply In_nth_error in Hin. destruct Hin as (i & Hi).
    assert (Hlt : (i < length (combinations (py_range n) (Z.to_nat k)))%nat)
      by (apply nth_error_Some; congruence).
    assert (Hlen : Z.of_nat (length (combinations (py_range n) (Z.to_nat k)))
                   = comb_prod n (Z.to_nat k)).
    { clear Hi Hlt Hc Hfwd. as_nat n n0. as_nat k k0.
      rewrite combinations_length, py_range_run, length_run.
      symmetry. apply comb_prod_pascal. }
    assert (Hr : 0 <= Z.of_nat i < comb_prod n (Z.to_nat k)) by lia.
    destruct (get_ith_comb_entry n k (Z.of_nat i) Hk Hr) as (c' & Hg & Hn & _).
    rewrite Nat2Z.id in Hn. assert (c' = c) by congruence. subst c'.
    destruct (Hfwd (Z.of_nat i) Hr) as (c2 & Hg2 & _ & Hc2).
    assert (c2 = c) by congruence. subst c2.
    rewrite Hc2.
    replace (comb_prod n (Z.to_nat k) - 1
             - (comb_prod n (Z.to_nat k) - 1 - Z.of_nat i))
      with (Z.of_nat i) by lia.
    split; [exact Hr|exact Hg].
Qed.

Lemma get_ith_comb_rank_round_trip_witness :
  (exists c, _get_ith_comb 5 2 4 = Ok c /\
             combinadic 5 c = comb_prod 5 (Z.to_nat 2) - 1 - 4).
Proof.
  destruct (get_ith_comb_rank_round_trip 5 2 ltac:(lia)) as (H & _).
  exact (H 4 ltac:(split; [lia|reflexivity])).
Defined.

(** ** [_pick_sp500_symbols] outside its documented domain *)

(** X3.  [_pick_sp500_symbols] does not check [choice]: every negative
    [choice] silently gives the first four symbols of the table, every
    [choice] from [C(503, 4) = 2635531375] on raises [StopIteration], and
    [StopIteration] for such a [choice] is the only way the call fails; no
    index ever leaves the table. *)
Theorem pick_sp500_symbols_unchecked (choice : Z) :
  (choice < 0 ->
   _pick_sp500_symbols choice = Ok ["MMM"; "AOS"; "ABT"; "ABBV"]%string) /\
  (2635531375 <= choice ->
   _pick_sp500_symbols choice = Raise StopIteration) /\
  (forall e, _pick_sp500_symbols choice = Raise e ->
     e = StopIteration /\ 2635531375 <= choice).
Proof.
  assert (HN : len SP_500 = Z.of_nat 503) by reflexivity.
  assert (HK : N_PICKS = Z.of_nat 4) by reflexivity.
  assert (HC : pascal 503 4 = 2635531375)
    by (rewrite <- comb_prod_pascal; reflexivity).
  assert (Hneg : choice < 0 ->
    _pick_sp500_symbols choice = Ok ["MMM"; "AOS"; "ABT"; "ABBV"]%string).
  { intros H. unfold _pick_sp500_symbols.
    rewrite HN, HK, get_ith_comb_capped by lia. reflexivity. }
  assert (Hbig : 2635531375 <= choice ->
    _pick_sp500_symbols choice = Raise StopIteration).
  { intros H. unfold _pick_sp500_symbols.
    rewrite HN, HK, get_ith_comb_nat, comb_loop_negative by lia.
    reflexivity. }
  split; [exact Hneg|]. split; [exact Hbig|].
  intros e He.
  destruct (Z.lt_ge_cases choice 0) as [H0|H0];
    [rewrite (Hneg H0) in He; discriminate|].
  destruct (Z.lt_ge_cases choice 2635531375) as [H1|H1];
    [|rewrite (Hbig H1) in He; injection He as <-; split; [reflexivity|lia]].
  exfalso.
  destruct (get_ith_comb_entry (len SP_500) N_PICKS choice
              ltac:(vm_compute; split; discriminate)
              ltac:(split; [lia|exact H1]))
    as (comb & Hg & _ & _ & _ & Hf).
  unfold _pick_sp500_symbols in He. rewrite Hg in He. cbn [bind] in He.
  rewrite (comprehension_getitem EmptyString) in He by exact Hf.
  discriminate.
Qed.

Lemma pick_sp500_symbols_unchecked_witness :
  _pick_sp500_symbols (-7) = Ok ["MMM"; "AOS"; "ABT"; "ABBV"]%string /\
  _pick_sp500_symbols 2635531375 = Raise StopIteration.
Proof.
  split.
  - apply (pick_sp500_symbols_unchecked (-7)). lia.
  - apply (pick_sp500_symbols_unchecked 2635531375). lia.
Defined.

(** ** The shape of the digest *)

Lemma pair_bits_negb (rows cols : list bool) :
  pair_bits (map negb rows) (map negb cols) = pair_bits rows cols.
Proof.
  unfold pair_bits. induction rows as [|r rows IH]; [reflexivity|].
  cbn [map list_prod]. rewrite !map_app, IH. f_equal.
  rewrite !map_map. apply map_ext. intros c. cbn. now destruct r, c.
Qed.

(** X4.  The digest string only records which row samples agree with which
    column samples: exchanging "above the average" and "not above the
    average" in both vectors at once leaves it unchanged. *)
Theorem bin_str_complement (rows cols : list bool) :
  bin_str (map negb rows) (map negb cols) = bin_str rows cols.
Proof. now rewrite !bin_str_digits, pair_bits_negb. Qed.

Lemma length_all_bools (n : nat) : length (all_bools n) = (2 ^ n)%nat.
Proof.
  induction n as [|n IH]; [reflexivity|].
  cbn [all_bools]. rewrite length_app, !length_map, IH. cbn. lia.
Qed.

Lemma in_all_bools (l : list bool) : In l (all_bools (length l)).
Proof.
  induction l as [|b l IH]; [now left|].
  cbn [length all_bools]. apply in_app_iff.
  destruct b; [left|right]; apply in_map; exact IH.
Qed.

(** X5.  Whatever the image, the 49-bit digest is fixed by the 13 bits of
    its first row and first column: the bit of the pair [(i, j)] is the
    exclusive or of the bits of [(i, 0)], [(0, j)] and [(0, 0)]. *)
Theorem digest_has_rank_one (img : samples) :
  len (rows_mono_image img) = SR_BITS ->
  len (cols_mono_image img) = SR_BITS ->
  exists d,
    py_int_base2 (_get_bin_str_from_image img) = Ok d /\
    forall i j : Z, 0 <= i < SR_BITS -> 0 <= j < SR_BITS ->
      Z.testbit d (SR_BITS ^ 2 - 1 - (i * SR_BITS + j)) =
      xorb (xorb (Z.testbit d (SR_BITS ^ 2 - 1 - i * SR_BITS))
                 (Z.testbit d (SR_BITS ^ 2 - 1 - j)))
           (Z.testbit d (SR_BITS ^ 2 - 1)).
Proof.
  intros Hr Hc.
  set (r := map (fun v => average_l img <? v) (rows_mono_image img)).
  set (c := map (fun v => average_l img <? v) (cols_mono_image img)).
  assert (Hlr : length r = 7%nat)
    by (unfold r, len, SR_BITS in *; rewrite length_map; lia).
  assert (Hlc : length c = 7%nat)
    by (unfold c, len, SR_BITS in *; rewrite length_map; lia).
  assert (Hlen : length (pair_bits r c) = 49%nat)
    by (rewrite length_pair_bits, Hlr, Hlc; reflexivity).
  exists (bits_value (pair_bits r c)). split.
  { unfold _get_bin_str_from_image. fold r c. rewrite bin_str_digits.
    apply py_int_base2_digits. intros E. rewrite E in Hlen. discriminate. }
  assert (Hbit : forall i j : nat, (i < 7)%nat -> (j < 7)%nat ->
    Z.testbit (bits_value (pair_bits r c))
      (49 - 1 - (Z.of_nat i * 7 + Z.of_nat j)) = pair_bit r c i j).
  { intros i j Hi Hj.
    pose proof (nth_error_pair_bits r c i j ltac:(lia) ltac:(lia)) as Hn.
    rewrite Hlc in Hn.
    pose proof (bits_value_testbit _ _ _ Hn) as Ht. rewrite Hlen in Ht.
    rewrite <- Ht. f_equal. lia. }
  intros i j Hi Hj. unfold SR_BITS in *. change (7 ^ 2) with 49.
  as_nat i i0. as_nat j j0.
  set (d := bits_value (pair_bits r c)) in *.
  assert (H00 : Z.testbit d (49 - 1) = pair_bit r c 0 0)
    by (rewrite <- (Hbit 0%nat 0%nat) by lia; f_equal).
  assert (Hi0 : Z.testbit d (49 - 1 - Z.of_nat i0 * 7) = pair_bit r c i0 0)
    by (rewrite <- (Hbit i0 0%nat) by lia; f_equal; lia).
  assert (H0j : Z.testbit d (49 - 1 - Z.of_nat j0) = pair_bit r c 0 j0)
    by (rewrite <- (Hbit 0%nat j0) by lia; f_equal; lia).
  rewrite (Hbit i0 j0), H00, Hi0, H0j by lia. unfold pair_bit.
  destruct (nth i0 r false), (nth j0 c false), (nth 0 r false),
    (nth 0 c false); reflexivity.
Qed.

Lemma digest_has_rank_one_witness :
  exists d,
    py_int_base2
      (_get_bin_str_from_image
         {| rows_mono_image := [90; 120; 200; 10; 130; 128; 127];
            cols_mono_image := [255; 0; 129; 128; 3; 77; 201];
            average_l := 128 |}) = Ok d /\
    Z.testbit d (SR_BITS ^ 2 - 1 - (2 * SR_BITS + 3)) =
    xorb (xorb (Z.testbit d (SR_BITS ^ 2 - 1 - 2 * SR_BITS))
               (Z.testbit d (SR_BITS ^ 2 - 1 - 3)))
         (Z.testbit d (SR_BITS ^ 2 - 1)).
Proof.
  destruct (digest_has_rank_one
              {| rows_mono_image := [90; 120; 200; 10; 130; 128; 127];
                 cols_mono_image := [255; 0; 129; 128; 3; 77; 201];
                 average_l := 128 |} eq_refl eq_refl) as (d & Hd & H).
  exists d. split; [exact Hd|].
  apply (H 2 3); unfold SR_BITS; lia.
Defined.

(** Up to the exchange of X4, the first row sample can be taken to be above
    the average. *)
Lemma thresholds_normal_form (r c : list bool) :
  length r = 7%nat -> length c = 7%nat ->
  exists rc,
    In rc (list_prod (all_bools 6) (all_bools 7)) /\
    pair_bits r c = pair_bits (true :: fst rc) (snd rc).
Proof.
  intros Hr Hc. destruct r as [|b r']; [discriminate|].
  injection Hr as Hr. destruct b.
  - exists (r', c). split; [|reflexivity].
    apply in_prod; [rewrite <- Hr|rewrite <- Hc]; apply in_all_bools.
  - exists (map negb r', map negb c). split.
    + apply in_prod.
      * rewrite <- Hr, <- (length_map negb r'). apply in_all_bools.
      * rewrite <- Hc, <- (length_map negb c). apply in_all_bools.
    + rewrite <- (pair_bits_negb (false :: r') c). reflexivity.
Qed.

(** X6.  Of the [2^49] values a 49-bit digest could take, at most
    [2^13 = 8192] can come out of [_get_bin_str_from_image], whatever the
    image. *)
Theorem digest_takes_at_most_8192_values :
  exists digests : list Z,
    len digests = 8192 /\
    forall img : samples,
      len (rows_mono_image img) = SR_BITS ->
      len (cols_mono_image img) = SR_BITS ->
      exists d, In d digests /\
                py_int_base2 (_get_bin_str_from_image img) = Ok d.
Proof.
  exists (map (fun rc => bits_value (pair_bits (true :: fst rc) (snd rc)))
            (list_prod (all_bools 6) (all_bools 7))).
  split.
  - unfold len. rewrite length_map, length_prod, !length_all_bools.
    reflexivity.
  - intros img Hr Hc.
    set (r := map (fun v => average_l img <? v) (rows_mono_image img)).
    set (c := map (fun v => average_l img <? v) (cols_mono_image img)).
    assert (Hlr : length r = 7%nat)
      by (unfold r, len, SR_BITS in *; rewrite length_map; lia).
    assert (Hlc : length c = 7%nat)
      by (unfold c, len, SR_BITS in *; rewrite length_map; lia).
    destruct (thresholds_normal_form r c Hlr Hlc) as (rc & Hin & E).
    exists (bits_value (pair_bits r c)). split.
    + rewrite E. apply (in_map (fun rc => bits_value
                                  (pair_bits (true :: fst rc) (snd rc)))).
      exact Hin.
    + unfold _get_bin_str_from_image. fold r c. rewrite bin_str_digits.
      apply py_int_base2_digits. intros E0.
      pose proof (length_pair_bits r c) as Hl.
      rewrite E0, Hlr, Hlc in Hl. discriminate.
Qed.

(** ** The quotient and the rank *)

Lemma digest_quotient_exact_aux (d : Z) :
  0 <= d < 2 ^ (SR_BITS ^ 2) ->
  exists m e, int_truediv binary64 d (2 ^ (SR_BITS ^ 2)) = Ok (Fin m e).
Proof.
  change (2 ^ (SR_BITS ^ 2)) with (2 ^ 49). intros Hd.
  rewrite int_truediv_pow2 by lia.
  destruct (Z.eq_dec d 0) as [->|Hne]; [exists 0, 0; reflexivity|].
  assert (Hd0 : 0 < d) by lia.
  destruct (round_ratio_pow2 d 49 Hd0 ltac:(lia)) as (m & Hq & _).
  - rewrite Z.pow_neg_r by lia. lia.
  - rewrite round_sig_small.
    + apply Z.lt_trans with (2 ^ 49); [lia|]. apply Z.pow_lt_mono_r; lia.
    + lia.
    + split; [lia|]. apply Z.lt_trans with (2 ^ 49); [lia|].
      apply Z.pow_lt_mono_r; lia.
  - eexists _, _. rewrite Hq. reflexivity.
Qed.



Lemma interp_49_bit_in_range (x : string) (d M : Z) :
  py_int_base2 x = Ok d -> 0 <= d < 2 ^ 49 ->
  0 < M < 2 ^ 1024 - 2 ^ 970 ->
  exists r, _interp_49_bit x M = Ok r /\ 0 <= r < M.
Proof.
  intros Hx Hd (HM & HT). apply float_of_int_range in HT; [|exact HM].
  rewrite (interp_49_bit_closed_form x d M Hx Hd HM HT).
  eexists. split; [reflexivity|].
  pose proof (rounded_product_below d M Hd HM) as Hlt.
  pose proof (round_sig_pos 53 M ltac:(lia) HM) as HF.
  assert (Hnn : 0 <= round_sig 53 (d * round_sig 53 M))
    by (apply round_sig_nonneg, Z.mul_nonneg_nonneg; lia).
  split; [apply Z.div_pos; lia|apply Z.div_lt_upper_bound; lia].
Qed.

(** The digest of an image with [SR_BITS] row and column samples. *)
Lemma image_digest (img : samples) :
  len (rows_mono_image img) = SR_BITS ->
  len (cols_mono_image img) = SR_BITS ->
  exists d, py_int_base2 (_get_bin_str_from_image img) = Ok d /\
            0 <= d < 2 ^ 49.
Proof.
  intros Hr Hc.
  set (r := map (fun v => average_l img <? v) (rows_mono_image img)).
  set (c := map (fun v => average_l img <? v) (cols_mono_image img)).
  assert (Hlen : length (pair_bits r c) = 49%nat).
  { rewrite length_pair_bits. unfold r, c, len, SR_BITS in *.
    rewrite !length_map.
    replace (length (rows_mono_image img)) with 7%nat by lia.
    replace (length (cols_mono_image img)) with 7%nat by lia. reflexivity. }
  exists (bits_value (pair_bits r c)). split.
  - unfold _get_bin_str_from_image. fold r c. rewrite bin_str_digits.
    apply py_int_base2_digits. intros E. rewrite E in Hlen. discriminate.
  - pose proof (bits_value_range (pair_bits r c)) as Hb.
    rewrite Hlen in Hb. exact Hb.
Qed.

(** ** The pipeline *)

(** X7.  [_get_number_from_image] keeps the promise of its docstring: for
    an image with [SR_BITS] row and column samples and a number of choices
    that a float can hold, it returns an integer in [[0, num_choices)]; for
    a larger number of choices it raises [OverflowError]. *)
Theorem get_number_from_image_in_range (img : samples) (num_choices : Z) :
  len (rows_mono_image img) = SR_BITS ->
  len (cols_mono_image img) = SR_BITS ->
  0 < num_choices ->
  (num_choices < 2 ^ 1024 - 2 ^ 970 ->
   exists r, _get_number_from_image img num_choices = Ok r /\
             0 <= r < num_choices) /\
  (2 ^ 1024 - 2 ^ 970 <= num_choices ->
   _get_number_from_image img num_choices = Raise OverflowError).
Proof.
  intros Hr Hc HM. destruct (image_digest img Hr Hc) as (d & Hd & Hb).
  unfold _get_number_from_image. split.
  - intros HT. apply (interp_49_bit_in_range _ d); [exact Hd|exact Hb|lia].
  - intros HT. apply (interp_49_bit_overflow _ d); try assumption.
    apply Z.le_ngt. intros Hfin.
    apply float_of_int_range in Hfin; [lia|exact HM].
Qed.

Lemma get_number_from_image_in_range_witness :
  exists r,
    _get_number_from_image
      {| rows_mono_image := [90; 120; 200; 10; 130; 128; 127];
         cols_mono_image := [255; 0; 129; 128; 3; 77; 201];
         average_l := 128 |} 2635531375 = Ok r /\
    0 <= r < 2635531375.
Proof.
  destruct (get_number_from_image_in_range
              {| rows_mono_image := [90; 120; 200; 10; 130; 128; 127];
                 cols_mono_image := [255; 0; 129; 128; 3; 77; 201];
                 average_l := 128 |} 2635531375 eq_refl eq_refl
              ltac:(lia)) as (H & _).
  exact (H ltac:(reflexivity)).
Defined.

(** X8.  [_pick_stocks] always succeeds on an image with [SR_BITS] row and
    column samples: the rank it derives lies in [[0, C(503, 4))], so the
    unranker is called inside its domain, and the result is [N_PICKS = 4]
    pairwise distinct symbols of [SP_500], in table order. *)
Theorem pick_stocks_selects (img : samples) :
  len (rows_mono_image img) = SR_BITS ->
  len (cols_mono_image img) = SR_BITS ->
  exists choice comb out,
    math_comb (len SP_500) N_PICKS = Ok 2635531375 /\
    _get_number_from_image img 2635531375 = Ok choice /\
    0 <= choice < 2635531375 /\
    _get_ith_comb (len SP_500) N_PICKS choice = Ok comb /\
    is_comb (len SP_500) N_PICKS comb /\
    _pick_stocks img = Ok out /\
    len out = N_PICKS /\ NoDup out /\
    Forall (fun s => In s SP_500) out /\
    out = map (fun i => nth (Z.to_nat i) SP_500 EmptyString) comb.
Proof.
  intros Hr Hc. destruct (image_digest img Hr Hc) as (d & Hd & Hb).
  assert (HM : math_comb (len SP_500) N_PICKS = Ok 2635531375)
    by reflexivity.
  destruct (interp_49_bit_in_range (_get_bin_str_from_image img) d
              2635531375 Hd Hb ltac:(split; [lia|reflexivity]))
    as (choice & Hi & Hrange).
  destruct (get_ith_comb_entry (len SP_500) N_PICKS choice
              ltac:(vm_compute; split; discriminate) Hrange)
    as (comb & Hg & _ & Hcomb).
  pose proof Hcomb as (Hlen & Hs & Hf).
  exists choice, comb,
    (map (fun i => nth (Z.to_nat i) SP_500 EmptyString) comb).
  split; [exact HM|]. split; [exact Hi|]. split; [exact Hrange|].
  split; [exact Hg|]. split; [exact Hcomb|].
  split; [|split; [|split; [|split]]].
  - unfold _pick_stocks. rewrite HM. cbn [bind].
    unfold _get_number_from_image in Hi |- *. rewrite Hi. cbn [bind].
    unfold _pick_sp500_symbols. rewrite Hg. cbn [bind].
    now apply comprehension_getitem.
  - unfold len in *. now rewrite length_map.
  - apply select_NoDup; [exact SP_500_NoDup|exact Hs|exact Hf].
  - apply Forall_map. eapply Forall_impl; [|exact Hf].
    intros i Hi'. apply nth_In. unfold len in Hi'. lia.
  - reflexivity.
Qed.

Lemma pick_stocks_selects_witness :
  exists out,
    _pick_stocks
      {| rows_mono_image := [90; 120; 200; 10; 130; 128; 127];
         cols_mono_image := [255; 0; 129; 128; 3; 77; 201];
         average_l := 128 |} = Ok out /\
    len out = N_PICKS /\ NoDup out.
Proof.
  destruct (pick_stocks_selects
              {| rows_mono_image := [90; 120; 200; 10; 130; 128; 127];
                 cols_mono_image := [255; 0; 129; 128; 3; 77; 201];
                 average_l := 128 |} eq_refl eq_refl)
    as (choice & comb & out & _ & _ & _ & _ & _ & H1 & H2 & H3 & _).
  exists out. split; [exact H1|]. split; [exact H2|exact H3].
Defined.

Lemma map_constant {A B : Type} (f : A -> B) (b : B) (l : list A) :
  Forall (fun a => f a = b) l -> map f l = repeat b (length l).
Proof.
  induction 1 as [|a l Ha Hl IH]; [reflexivity|].
  cbn. now rewrite Ha, IH.
Qed.

(** X9.  An image without contrast at the sampled scale always gives the
    same pick: when no row or column sample exceeds the average (a flat
    image), or when all of them do, the digest string is ["0b"] followed by
    49 ones, the rank is [C(503, 4) - 1] and [_pick_stocks] returns the last
    four symbols of the table. *)
Theorem pick_stocks_flat_image (img : samples) :
  len (rows_mono_image img) = SR_BITS ->
  len (cols_mono_image img) = SR_BITS ->
  (Forall (fun v => v <= average_l img)
     (rows_mono_image img ++ cols_mono_image img) \/
   Forall (fun v => average_l img < v)
     (rows_mono_image img ++ cols_mono_image img)) ->
  _get_bin_str_from_image img
  = "0b1111111111111111111111111111111111111111111111111"%string /\
  _get_number_from_image img 2635531375 = Ok 2635531374 /\
  _pick_stocks img = Ok ["ZBRA"; "ZBH"; "ZION"; "ZTS"]%string.
Proof.
  intros Hr Hc Hflat.
  assert (Hlr : length (rows_mono_image img) = 7%nat)
    by (unfold len, SR_BITS in Hr; lia).
  assert (Hlc : length (cols_mono_image img) = 7%nat)
    by (unfold len, SR_BITS in Hc; lia).
  assert (Hb : exists b : bool,
    map (fun v => average_l img <? v) (rows_mono_image img) = repeat b 7 /\
    map (fun v => average_l img <? v) (cols_mono_image img) = repeat b 7).
  { destruct Hflat as [H|H]; apply Forall_app in H; destruct H as (H1 & H2).
    - exists false. split.
      + rewrite <- Hlr. apply map_constant.
        eapply Forall_impl; [|exact H1]. cbn. intros v Hv.
        apply Z.ltb_ge. lia.
      + rewrite <- Hlc. apply map_constant.
        eapply Forall_impl; [|exact H2]. cbn. intros v Hv.
        apply Z.ltb_ge. lia.
    - exists true. split.
      + rewrite <- Hlr. apply map_constant.
        eapply Forall_impl; [|exact H1]. cbn. intros v Hv.
        apply Z.ltb_lt. lia.
      + rewrite <- Hlc. apply map_constant.
        eapply Forall_impl; [|exact H2]. cbn. intros v Hv.
        apply Z.ltb_lt. lia. }
  destruct Hb as (b & Er & Ec).
  unfold _pick_stocks, _get_number_from_image, _get_bin_str_from_image.
  rewrite Er, Ec.
  destruct b; (split; [|split]); vm_compute; reflexivity.
Qed.

Lemma pick_stocks_flat_image_witness :
  _get_bin_str_from_image
    {| rows_mono_image := [128; 128; 128; 128; 128; 128; 128];
       cols_mono_image := [128; 128; 128; 128; 128; 128; 128];
       average_l := 128 |}
  = "0b1111111111111111111111111111111111111111111111111"%string /\
  _get_number_from_image
    {| rows_mono_image := [128; 128; 128; 128; 128; 128; 128];
       cols_mono_image := [128; 128; 128; 128; 128; 128; 128];
       average_l := 128 |} 2635531375 = Ok 2635531374 /\
  _pick_stocks
    {| rows_mono_image := [128; 128; 128; 128; 128; 128; 128];
       cols_mono_image := [128; 128; 128; 128; 128; 128; 128];
       average_l := 128 |} = Ok ["ZBRA"; "ZBH"; "ZION"; "ZTS"]%string.
Proof.
  apply (pick_stocks_flat_image
           {| rows_mono_image := [128; 128; 128; 128; 128; 128; 128];
              cols_mono_image := [128; 128; 128; 128; 128; 128; 128];
              average_l := 128 |} eq_refl eq_refl).
  left. cbn. repeat constructor; lia.
Defined.

(** X10.  Of the [C(503, 4) = 2635531375] selections of four symbols,
    [_pick_stocks] can return at most [2^13 = 8192], whatever the image:
    the pick depends on the image only through which of the 7 row samples
    agree with which of the 7 column samples. *)
Theorem pick_stocks_at_most_8192_outcomes :
  exists outcomes : list (result (list string)),
    len outcomes = 8192 /\
    forall img : samples,
      len (rows_mono_image img) = SR_BITS ->
      len (cols_mono_image img) = SR_BITS ->
      In (_pick_stocks img) outcomes.
Proof.
  set (g := fun bits : list bool =>
    num_choices <- math_comb (len SP_500) N_PICKS ;;
    choice <- _interp_49_bit ("0b" ++ digits bits) num_choices ;;
    _pick_sp500_symbols choice).
  exists (map (fun rc => g (pair_bits (true :: fst rc) (snd rc)))
            (list_prod (all_bools 6) (all_bools 7))).
  split.
  - unfold len. rewrite length_map, length_prod, !length_all_bools.
    reflexivity.
  - intros img Hr Hc.
    set (r := map (fun v => average_l img <? v) (rows_mono_image img)).
    set (c := map (fun v => average_l img <? v) (cols_mono_image img)).
    assert (Hlr : length r = 7%nat)
      by (unfold r, len, SR_BITS in *; rewrite length_map; lia).
    assert (Hlc : length c = 7%nat)
      by (unfold c, len, SR_BITS in *; rewrite length_map; lia).
    destruct (thresholds_normal_form r c Hlr Hlc) as (rc & Hin & E).
    assert (Hg : _pick_stocks img = g (pair_bits r c)).
    { unfold _pick_stocks, _get_number_from_image, _get_bin_str_from_image.
      fold r c. rewrite bin_str_digits. reflexivity. }
    rewrite Hg, E.
    apply (in_map (fun rc => g (pair_bits (true :: fst rc) (snd rc)))).
    exact Hin.
Qed.

(** ** More edge behaviour *)

(** X13.  Whatever its arguments, in or out of the documented domain,
    [_get_ith_comb] never returns a malformed result: when it returns at
    all, the list is an ascending tuple of exactly [k] distinct indices of
    [{0, ..., n-1}]. *)
Theorem get_ith_comb_returns_combinations (n k idx : Z) (c : list Z) :
  _get_ith_comb n k idx = Ok c -> is_comb n k c.
Proof.
  intros H.
  destruct (Z.lt_ge_cases n 0) as [Hn|Hn].
  { unfold _get_ith_comb in H.
    rewrite math_comb_negative in H by lia. discriminate. }
  destruct (Z.lt_ge_cases k 0) as [Hk|Hk].
  { unfold _get_ith_comb in H.
    rewrite math_comb_negative in H by lia. discriminate. }
  revert H. as_nat n n0. as_nat k k0. intros H.
  destruct (Nat.lt_ge_cases n0 k0) as [Hlt|Hge].
  { rewrite get_ith_comb_nat, comb_loop_exhausts in H by exact Hlt.
    discriminate. }
  pose proof (pascal_pos n0 k0 Hge) as Hpos.
  assert (Hin : forall i, 0 <= i < pascal n0 k0 ->
            _get_ith_comb (Z.of_nat n0) (Z.of_nat k0) i = Ok c ->
            is_comb (Z.of_nat n0) (Z.of_nat k0) c).
  { intros i Hi Hg.
    destruct (get_ith_comb_entry (Z.of_nat n0) (Z.of_nat k0) i
                ltac:(lia)) as (c' & Hg' & _ & Hc').
    - rewrite Nat2Z.id, comb_prod_pascal. exact Hi.
    - congruence. }
  destruct (Z.lt_ge_cases idx 0) as [Hneg|Hnn].
  - apply (Hin 0); [lia|].
    rewrite get_ith_comb_capped in H |- * by lia. exact H.
  - destruct (Z.lt_ge_cases idx (pascal n0 k0)) as [Hlo|Hhi].
    + apply (Hin idx); [lia|exact H].
    + destruct k0 as [|k1].
      * rewrite get_ith_comb_nat in H. cbn in H. injection H as <-.
        split; [reflexivity|]. split; constructor.
      * rewrite get_ith_comb_nat, comb_loop_negative in H by lia.
        discriminate.
Qed.

Lemma get_ith_comb_returns_combinations_witness :
  is_comb 5 2 [0; 1] /\ is_comb 5 2 [1; 2].
Proof.
  split.
  - apply (get_ith_comb_returns_combinations 5 2 (-3)). reflexivity.
  - apply (get_ith_comb_returns_combinations 5 2 4). reflexivity.
Defined.

Lemma float_mul_zero_r (f : float_format) (m e : Z) :
  float_mul f (Fin m e) (Fin 0 0) = Fin 0 0.
Proof.
  unfold float_mul. rewrite !Z.mul_0_r, !Z.mul_0_l.
  destruct (0 <=? e + 0); apply round_ratio_zero.
Qed.

(** X12.  With an upper bound of zero there is no rank to return, yet
    [_interp_49_bit] does not fail: for every digest below [2^49] it returns
    [0], a value outside the empty range [[0, 0)] that its docstring
    promises. *)
Theorem interp_49_bit_zero_bound (x : string) (d : Z) :
  py_int_base2 x = Ok d -> 0 <= d < 2 ^ (SR_BITS ^ 2) ->
  _interp_49_bit x 0 = Ok 0.
Proof.
  intros Hx Hd.
  destruct (digest_quotient_exact_aux d Hd) as (m & e & Hq).
  unfold _interp_49_bit, interp_49_bit_on. rewrite Hx. cbn [bind].
  rewrite Hq. cbn [bind].
  change (float_of_int binary64 0) with (@Ok pyfloat (Fin 0 0)).
  cbn [bind]. rewrite float_mul_zero_r. reflexivity.
Qed.

Lemma interp_49_bit_zero_bound_witness :
  _interp_49_bit "0b1101000001111110100000101011111010010010101110001" 0
  = Ok 0.
Proof.
  apply (interp_49_bit_zero_bound
           "0b1101000001111110100000101011111010010010101110001"
           458483555968369 eq_refl).
  split; [lia|reflexivity].
Defined.
